(** * Speaker separation and role assignment (scripts/lib_speaker.py)

    A shallow embedding of the speaker subsystem of the call auditor:
    the energy diarizer, the segment aligner, the per-speaker aggregator,
    the role inferencer, the speaking balance, the role-aware sentiment
    aggregator and the stereo / mono facade; and, as a caller of the
    facade's speaker summary, the speaking-balance KPI (scripts/lib_kpis.py).

    Conventions of the embedding:
    - a Python [str] is a list of Unicode code points ([pystr]);
    - a Python [float] is a binary64 primitive float, a Python [int] is a [Z];
    - a dict whose iteration order is observed is an association list in
      insertion order; a dict read with [.get(key, default)] is a record whose
      optional keys are [option] fields;
    - the collaborators (audio decoding, transcription, sentiment model,
      temporary-file names) are fields of an environment record, and the
      facade runs in a small state-and-exception monad over the set of files
      on disk and the trace of collaborator calls. *)

From stdpp Require Import base list gmap strings sorting.
From Stdlib Require Import ZArith QArith Lia Floats Uint63.

Set Warnings "-inexact-float".
Local Open Scope Z_scope.

(** ** Python strings *)

Definition pychar := N.
Definition pystr := list pychar.

(** An ASCII literal as a Python string. *)
Definition py (s : string) : pystr :=
  (fun a => Ascii.N_of_ascii a) <$> String.list_ascii_of_string s.

(** [str.isspace] on one code point: the code points CPython's
    [_PyUnicode_IsWhitespace] accepts; [str.strip()] and [str.split()]
    without arguments use this set. *)
Definition isspace (c : pychar) : bool :=
  (((9 <=? c) && (c <=? 13)) || ((28 <=? c) && (c <=? 32))
   || (c =? 133) || (c =? 160) || (c =? 5760)
   || ((8192 <=? c) && (c <=? 8202))
   || (c =? 8232) || (c =? 8233) || (c =? 8239) || (c =? 8287)
   || (c =? 12288))%N.

Fixpoint lstrip (s : pystr) : pystr :=
  match s with
  | [] => []
  | c :: s' => if isspace c then lstrip s' else s
  end.

Definition rstrip (s : pystr) : pystr := rev (lstrip (rev s)).

(** [s.strip()] *)
Definition strip (s : pystr) : pystr := rstrip (lstrip s).

(** [s.split()]: the maximal runs of non-whitespace code points. [cur] is the
    token being read, reversed. *)
Fixpoint split_from (cur : pystr) (s : pystr) : list pystr :=
  match s with
  | [] => match cur with [] => [] | _ => [rev cur] end
  | c :: s' =>
      if isspace c
      then match cur with
           | [] => split_from [] s'
           | _ => rev cur :: split_from [] s'
           end
      else split_from (c :: cur) s'
  end.

Definition split (s : pystr) : list pystr := split_from [] s.

(** [sep.join(parts)] *)
Fixpoint join (sep : pystr) (parts : list pystr) : pystr :=
  match parts with
  | [] => []
  | [p] => p
  | p :: ps => p ++ sep ++ join sep ps
  end.

(** [needle in hay] on strings: [needle] is a prefix of some suffix. *)
Fixpoint starts_with (needle hay : pystr) : bool :=
  match needle, hay with
  | [], _ => true
  | _ :: _, [] => false
  | a :: needle', b :: hay' => (a =? b)%N && starts_with needle' hay'
  end.

Fixpoint str_in (needle hay : pystr) : bool :=
  starts_with needle hay ||
  match hay with
  | [] => false
  | _ :: hay' => str_in needle hay'
  end.

(** Truthiness of a string: non-empty. *)
Definition truthy (s : pystr) : bool :=
  match s with [] => false | _ => true end.

Definition space : pystr := [32%N].
Definition newline : pystr := [10%N].

(** Simple case mapping on ASCII and Latin-1 letters, where [str.lower] and
    [str.upper] map one code point to one code point. The development is
    parametric in the two case mappings; these instances run the examples. *)
Definition lower_char (c : pychar) : pychar :=
  (if ((65 <=? c) && (c <=? 90)) || ((192 <=? c) && (c <=? 222) && negb (c =? 215))
   then c + 32 else c)%N.
Definition upper_char (c : pychar) : pychar :=
  (if ((97 <=? c) && (c <=? 122)) || ((224 <=? c) && (c <=? 254) && negb (c =? 247))
   then c - 32 else c)%N.
Definition latin_lower (s : pystr) : pystr := lower_char <$> s.
Definition latin_upper (s : pystr) : pystr := upper_char <$> s.

(** ** Python numbers *)

Local Open Scope float_scope.

(** [float(n)] for an int; exact below 2^53, which covers every count and
    frame index of a recording. *)
Definition float_of_int (n : Z) : float :=
  if (n <? 0)%Z then - of_uint63 (of_Z (- n)) else of_uint63 (of_Z n).

(** [a / b] on two ints (true division). *)
Definition int_truediv (a b : Z) : float := float_of_int a / float_of_int b.

(** [max(a, b)] and [min(a, b)] on two arguments: the first one is kept
    unless the second compares strictly greater (smaller). *)
Definition py_max (a b : float) : float := if a <? b then b else a.
Definition py_min (a b : float) : float := if b <? a then b else a.

(** ** Data model *)

(** A diarized span ([SpeakerSegment] dataclass). *)
Record SpeakerSegment := {
  seg_speaker : pystr;
  seg_start : float;
  seg_end : float;
  seg_confidence : float;
}.

(** A timestamped transcript segment as the transcriber returns it; a key the
    dict does not have is [None]. *)
Record WhisperSegment := {
  ws_start : option float;
  ws_end : option float;
  ws_text : option pystr;
}.

(** One aligned segment (the dict [_align_segments] appends). *)
Record AlignedSegment := {
  al_speaker : pystr;
  al_start : float;
  al_end : float;
  al_text : pystr;
  al_confidence : float;
}.

(** One per-speaker transcript entry. The stereo path sets ["role"]; the
    aggregator leaves the key out. *)
Record SpeakerTranscript := {
  st_speaker : pystr;
  st_role : option pystr;
  st_text : pystr;
  st_duration : float;
  st_segments : list AlignedSegment;
  st_word_count : Z;
}.

Definition speaker_1 : pystr := py "speaker_1".
Definition speaker_2 : pystr := py "speaker_2".

(** ** Ordered dictionaries (insertion order, as Python's [dict]) *)

Section Dict.
Context {V : Type}.

Fixpoint dict_get (k : pystr) (d : list (pystr * V)) : option V :=
  match d with
  | [] => None
  | (k', v) :: d' => if decide (k = k') then Some v else dict_get k d'
  end.

(** [d[k] = v]: overwrite in place, or append a new key. *)
Fixpoint dict_set (k : pystr) (v : V) (d : list (pystr * V)) : list (pystr * V) :=
  match d with
  | [] => [(k, v)]
  | (k', v') :: d' =>
      if decide (k = k') then (k, v) :: d' else (k', v') :: dict_set k v d'
  end.

(** [d.setdefault(k, v)]: the stored value, inserting [v] when absent. *)
Definition dict_setdefault (k : pystr) (v : V) (d : list (pystr * V))
  : V * list (pystr * V) :=
  match dict_get k d with
  | Some v' => (v', d)
  | None => (v, d ++ [(k, v)])
  end.

Definition dict_keys (d : list (pystr * V)) : list pystr := fst <$> d.
Definition dict_values (d : list (pystr * V)) : list V := snd <$> d.
End Dict.

(** ** SegmentAligner: [_align_segments] *)

Definition get_float (o : option float) (default : float) : float :=
  match o with Some x => x | None => default end.
Definition get_str (o : option pystr) (default : pystr) : pystr :=
  match o with Some x => x | None => default end.

(** The generator's condition [ds.start <= midpoint <= ds.end]. *)
Definition covers (midpoint : float) (ds : SpeakerSegment) : bool :=
  (seg_start ds <=? midpoint) && (midpoint <=? seg_end ds).

Definition align_one (diar_segments : list SpeakerSegment) (ws : WhisperSegment)
  : AlignedSegment :=
  let midpoint := (get_float (ws_start ws) 0 + get_float (ws_end ws) 0) / 2 in
  let matched := List.find (covers midpoint) diar_segments in
  let speaker := match matched with Some ds => seg_speaker ds | None => speaker_1 end in
  let confidence := match matched with Some ds => seg_confidence ds | None => 0.3 end in
  {| al_speaker := speaker;
     al_start := get_float (ws_start ws) 0;
     al_end := get_float (ws_end ws) 0;
     al_text := get_str (ws_text ws) [];
     al_confidence := confidence |}.

Definition _align_segments (whisper_segments : list WhisperSegment)
    (diar_segments : list SpeakerSegment) : list AlignedSegment :=
  fold_left (fun aligned ws => aligned ++ [align_one diar_segments ws])
            whisper_segments [].

(** ** SpeakerAggregator: [_aggregate_by_speaker] *)

Definition new_entry (speaker : pystr) : SpeakerTranscript :=
  {| st_speaker := speaker; st_role := None; st_text := []; st_duration := 0;
     st_segments := []; st_word_count := 0 |}.

(** One iteration of the first loop: fetch or create the speaker's entry and
    extend its text, duration and segment list in place. *)
Definition aggregate_step (bucket : list (pystr * SpeakerTranscript))
    (seg : AlignedSegment) : list (pystr * SpeakerTranscript) :=
  let speaker := al_speaker seg in
  let '(entry, bucket) := dict_setdefault speaker (new_entry speaker) bucket in
  let entry :=
    {| st_speaker := st_speaker entry; st_role := st_role entry;
       st_text := st_text entry ++ (strip (al_text seg) ++ space);
       st_duration := st_duration entry + py_max (al_end seg - al_start seg) 0;
       st_segments := st_segments entry ++ [seg];
       st_word_count := st_word_count entry |} in
  dict_set speaker entry bucket.

(** The second loop: trim the text and count its words. *)
Definition normalize_entry (entry : SpeakerTranscript) : SpeakerTranscript :=
  let text := strip (st_text entry) in
  {| st_speaker := st_speaker entry; st_role := st_role entry;
     st_text := text;
     st_duration := st_duration entry;
     st_segments := st_segments entry;
     st_word_count := Z.of_nat (length (split text)) |}.

Definition _aggregate_by_speaker (aligned_segments : list AlignedSegment)
  : list SpeakerTranscript :=
  let bucket := fold_left aggregate_step aligned_segments [] in
  normalize_entry <$> dict_values bucket.

(** ** EnergyDiarizer: [LightweightDiarizer] *)

Record LightweightDiarizer := {
  frame_ms : Z;
  hop_ms : Z;
  energy_threshold : float;
}.

(** [LightweightDiarizer()] with its default arguments. *)
Definition default_diarizer : LightweightDiarizer :=
  {| frame_ms := 32; hop_ms := 16; energy_threshold := 0.5 |}.

(** What the audio libraries hand to [diarize]: the number of samples of the
    waveform loaded at 16 kHz mono ([len(y)]), the normalized frame energies
    ([rms / (max(rms) + 1e-9)]) and their mean ([np.mean(rms_norm)]). *)
Record Signal := {
  n_samples : Z;
  rms_norm : list float;
  rms_mean : float;
}.

(** The rate [librosa.load(..., sr=16000)] resamples to. *)
Definition sr : Z := 16000.

(** [int(sr * self.hop_ms / 1000)] *)
Definition hop_length (d : LightweightDiarizer) : Z := (sr * hop_ms d) `quot` 1000.

Definition threshold (d : LightweightDiarizer) (sig : Signal) : float :=
  py_max (energy_threshold d * rms_mean sig) 0.05.

Definition _build_segment (start_frame end_frame hop_length sr idx : Z)
  : SpeakerSegment :=
  let start := int_truediv (start_frame * hop_length) sr in
  let end_ := int_truediv ((end_frame + 1) * hop_length) sr in
  let speaker_label := if (idx `mod` 2 =? 0)%Z then speaker_1 else speaker_2 in
  {| seg_speaker := speaker_label; seg_start := start; seg_end := end_;
     seg_confidence := 0.5 |}.

(** The local variables of the scan loop. *)
Record ScanState := {
  segments : list SpeakerSegment;
  active : bool;
  start_frame : Z;
  last_active_frame : Z;
}.

Definition scan_init : ScanState :=
  {| segments := []; active := false; start_frame := 0; last_active_frame := 0 |}.

(** The emission of one segment: [segments.append(self._build_segment(...))]. *)
Definition emit (hop : Z) (st : ScanState) : list SpeakerSegment :=
  segments st ++
  [_build_segment (start_frame st) (last_active_frame st) hop sr
                  (Z.of_nat (length (segments st)))].

(** The body of [for idx, energy in enumerate(rms_norm)]: three [if]s in
    sequence. [energy >= threshold] is [threshold <= energy]. *)
Definition scan_body (thr : float) (hop : Z) (st : ScanState) (idx : Z)
    (energy : float) : ScanState :=
  let st1 :=
    if (thr <=? energy) && negb (active st)
    then {| segments := segments st; active := true; start_frame := idx;
            last_active_frame := last_active_frame st |}
    else st in
  let st2 :=
    if thr <=? energy
    then {| segments := segments st1; active := active st1;
            start_frame := start_frame st1; last_active_frame := idx |}
    else st1 in
  if (energy <? thr) && active st2
  then {| segments := emit hop st2; active := false;
          start_frame := start_frame st2;
          last_active_frame := last_active_frame st2 |}
  else st2.

Fixpoint scan_loop (thr : float) (hop : Z) (st : ScanState) (idx : Z)
    (frames : list float) : ScanState :=
  match frames with
  | [] => st
  | energy :: frames' =>
      scan_loop thr hop (scan_body thr hop st idx energy) (idx + 1) frames'
  end.

(** The segments after the loop and the trailing [if active]. *)
Definition scan_segments (thr : float) (hop : Z) (frames : list float)
  : list SpeakerSegment :=
  let st := scan_loop thr hop scan_init 0 frames in
  if active st then emit hop st else segments st.

(** The fallback of an empty scan: the whole clip, low confidence. *)
Definition fallback_segment (sig : Signal) : SpeakerSegment :=
  {| seg_speaker := speaker_1; seg_start := 0;
     seg_end := int_truediv (n_samples sig) sr; seg_confidence := 0.2 |}.

Definition diarize (d : LightweightDiarizer) (sig : Signal) : list SpeakerSegment :=
  let segments := scan_segments (threshold d sig) (hop_length d) (rms_norm sig) in
  match segments with
  | [] => [fallback_segment sig]
  | _ => segments
  end.

(** The scan as the two-state machine of the design: [Inactive], or [Active]
    with the frame that opened the span and the last frame at or above the
    threshold. [vad_run thr st idx frames spans] holds when the machine,
    started in [st] at frame [idx], emits the frame spans [spans]. *)
Inductive vad_state := Inactive | Active (start last : Z).

Inductive vad_run (thr : float) : vad_state -> Z -> list float -> list (Z * Z) -> Prop :=
  | vad_end_inactive idx :
      vad_run thr Inactive idx [] []
  | vad_end_active start last idx :
      vad_run thr (Active start last) idx [] [(start, (last + 1)%Z)]
  | vad_open idx energy frames spans :
      (thr <=? energy) = true ->
      vad_run thr (Active idx idx) (idx + 1)%Z frames spans ->
      vad_run thr Inactive idx (energy :: frames) spans
  | vad_idle idx energy frames spans :
      (thr <=? energy) = false ->
      vad_run thr Inactive (idx + 1)%Z frames spans ->
      vad_run thr Inactive idx (energy :: frames) spans
  | vad_track start last idx energy frames spans :
      (thr <=? energy) = true ->
      vad_run thr (Active start idx) (idx + 1)%Z frames spans ->
      vad_run thr (Active start last) idx (energy :: frames) spans
  | vad_close start last idx energy frames spans :
      (energy <? thr) = true ->
      vad_run thr Inactive (idx + 1)%Z frames spans ->
      vad_run thr (Active start last) idx (energy :: frames)
              ((start, (last + 1)%Z) :: spans)
  | vad_hold start last idx energy frames spans :
      (thr <=? energy) = false ->
      (energy <? thr) = false ->
      vad_run thr (Active start last) (idx + 1)%Z frames spans ->
      vad_run thr (Active start last) idx (energy :: frames) spans.

(** The segment of the [k]-th emitted span: frames to seconds through the hop
    length, label by the parity of [k], confidence 0.5. *)
Definition span_segment (hop : Z) (k : nat) (span : Z * Z) : SpeakerSegment :=
  {| seg_speaker := if Nat.even k then speaker_1 else speaker_2;
     seg_start := int_truediv (span.1 * hop) sr;
     seg_end := int_truediv (span.2 * hop) sr;
     seg_confidence := 0.5 |}.

(** ** Case mappings of the Python runtime *)

(** [str.lower] and [str.upper] follow the Unicode tables of the interpreter;
    the analyzer is parametric in them. *)
Class CaseMapping := {
  lower : pystr -> pystr;
  upper : pystr -> pystr;
}.

Definition latin_case : CaseMapping :=
  {| lower := latin_lower; upper := latin_upper |}.

(** ** RoleInferencer: [_infer_roles] *)

Record RoleMapping := {
  rm_operator : option pystr;
  rm_client : option pystr;
  rm_confidence : float;
  rm_strategy : pystr;
  rm_uncertain : option bool;
  rm_notes : option pystr;
}.

Definition OPERATOR_CUES : list pystr :=
  [ py "lo llamo de";
    py "buenos dias";
    py "buenos d" ++ [237%N] ++ py "as";
    py "mi nombre es";
    py "habla con";
    py "en que puedo ayudar";
    py "soy del" ].

Definition CLIENT_CUES : list pystr :=
  [ py "no puedo pagar";
    py "estoy sin trabajo";
    py "necesito ayuda";
    py "no me cobraron bien";
    py "no tengo dinero";
    py "no estoy de acuerdo" ].

(** [sum(1 for cue in cues if cue in text_lower)] *)
Definition count_cues (cues : list pystr) (text_lower : pystr) : nat :=
  length (List.filter (fun cue => str_in cue text_lower) cues).

(** The score of a speaker from the three facts it depends on: whether the
    entry is the first one, and how many operator and client cues match. *)
Definition score_of (first : bool) (n_operator n_client : nat) : float :=
  let score := 0 in
  let score := if first then score + 0.3 else score in
  let score := score + float_of_int (Z.of_nat n_operator) * 0.2 in
  let score := score - float_of_int (Z.of_nat n_client) * 0.2 in
  score.

(** [sorted(items, key=lambda x: x[1], reverse=True)]: a stable sort by
    decreasing score; items of equal score keep their original order. *)
Fixpoint insert_desc (x : pystr * float) (l : list (pystr * float))
  : list (pystr * float) :=
  match l with
  | [] => [x]
  | y :: l' => if x.2 <? y.2 then y :: insert_desc x l' else x :: l
  end.

Definition sorted_desc (items : list (pystr * float)) : list (pystr * float) :=
  foldr insert_desc [] items.

Definition clamp_confidence (diff : float) : float :=
  py_min (py_max diff 0.2) 0.95.

Definition single_speaker_notes : pystr :=
  py "Solo se detect" ++ [243%N] ++ py " un hablante".

(** The mapping of an empty transcript. *)
Definition no_data_mapping : RoleMapping :=
  {| rm_operator := None; rm_client := None; rm_confidence := 0;
     rm_strategy := py "no_data"; rm_uncertain := None; rm_notes := None |}.

(** [entry.get("role") or entry.get("speaker")] *)
Definition role_or_speaker (entry : SpeakerTranscript) : pystr :=
  match st_role entry with
  | Some role => if truthy role then role else st_speaker entry
  | None => st_speaker entry
  end.

Section Analyzer.
Context `{CaseMapping}.

(** The score the loop body computes for the entry at position [idx]. *)
Definition speaker_score (idx : Z) (speaker_entry : SpeakerTranscript) : float :=
  let text_lower := lower (st_text speaker_entry) in
  score_of (idx =? 0)%Z (count_cues OPERATOR_CUES text_lower)
           (count_cues CLIENT_CUES text_lower).

(** [for idx, speaker_entry in enumerate(...)]: fill the [scores] dict. *)
Fixpoint score_loop (scores : list (pystr * float)) (idx : Z)
    (entries : list SpeakerTranscript) : list (pystr * float) :=
  match entries with
  | [] => scores
  | speaker_entry :: entries' =>
      score_loop
        (dict_set (st_speaker speaker_entry)
                  (speaker_score idx speaker_entry) scores)
        (idx + 1)%Z entries'
  end.

Definition _infer_roles (transcript_by_speaker : list SpeakerTranscript)
  : RoleMapping :=
  match transcript_by_speaker with
  | [] => no_data_mapping
  | _ =>
      let scores := score_loop [] 0 transcript_by_speaker in
      if (length scores =? 1)%nat then
        (* [next(iter(scores))]: the first key *)
        {| rm_operator := head (dict_keys scores); rm_client := None;
           rm_confidence := 0.4; rm_strategy := py "single_speaker";
           rm_uncertain := None; rm_notes := Some single_speaker_notes |}
      else
        let sorted_speakers := sorted_desc scores in
        match sorted_speakers !! 0%nat, sorted_speakers !! 1%nat with
        | Some (operator_id, operator_score), Some (client_id, client_score) =>
            let confidence := clamp_confidence (operator_score - client_score) in
            let uncertain := confidence <? 0.5 in
            {| rm_operator := Some operator_id; rm_client := Some client_id;
               rm_confidence := confidence; rm_strategy := py "cue_and_order";
               rm_uncertain := Some uncertain; rm_notes := None |}
        | _, _ =>
            (* an index out of range; not reached, as a non-empty input
               leaves at least one score and exactly one is handled above *)
            no_data_mapping
        end
  end.

(** ** Labeled transcript: [_build_labeled_transcript] *)

Definition labeled_line (speaker_entry : SpeakerTranscript) : list pystr :=
  let role := role_or_speaker speaker_entry in
  let text := strip (st_text speaker_entry) in
  if truthy text
  then [py "[" ++ upper role ++ py "] " ++ text]
  else [].

Definition _build_labeled_transcript
    (transcript_by_speaker : list SpeakerTranscript) : pystr :=
  let lines :=
    fold_left (fun lines e => lines ++ labeled_line e) transcript_by_speaker [] in
  strip (join newline lines).
End Analyzer.

(** ** BalanceComputer: [_compute_speaking_balance] *)

(** The dict [_compute_speaking_balance] returns; the zeroed one has no
    word counts and no unit, the other one no note. *)
Record SpeakingBalance := {
  operator_percentage : float;
  client_percentage : float;
  operator_words : option Z;
  client_words : option Z;
  unit_ : option pystr;
  balance_quality : pystr;
  note : option pystr;
}.

Definition balance_step (acc : Z * Z) (entry : SpeakerTranscript) : Z * Z :=
  let role := role_or_speaker entry in
  let words := st_word_count entry in
  if decide (role = py "operator") then ((acc.1 + words)%Z, acc.2)
  else if decide (role = py "client") then (acc.1, (acc.2 + words)%Z)
  else acc.

Definition _compute_speaking_balance
    (transcript_by_speaker : list SpeakerTranscript) : SpeakingBalance :=
  let '(operator_words, client_words) :=
    fold_left balance_step transcript_by_speaker (0%Z, 0%Z) in
  let total := (operator_words + client_words)%Z in
  if (total =? 0)%Z then
    {| operator_percentage := 0; client_percentage := 0;
       operator_words := None; client_words := None; unit_ := None;
       balance_quality := py "SIN_DATOS"; note := Some (py "sin palabras") |}
  else
    let operator_pct := int_truediv operator_words total * 100 in
    let client_pct := int_truediv client_words total * 100 in
    let balance_quality :=
      if (35 <=? operator_pct) && (operator_pct <=? 55)
      then py "BUENO" else py "DESBALANCEADO" in
    {| operator_percentage := int_truediv operator_words total * 100;
       client_percentage := client_pct;
       operator_words := Some operator_words;
       client_words := Some client_words;
       unit_ := Some (py "porcentaje");
       balance_quality := balance_quality; note := None |}.

(** ** The facade's world: files on disk and the trace of calls *)

Definition path := string.

Inductive exn :=
  | DecodingError     (* the audio file cannot be opened or parsed *)
  | ValueError        (* split_stereo_channels on a file that is not stereo *)
  | AttributeError.   (* [.get] on the [None] a failed transcription returns *)

Inductive event :=
  | CallDetectProfile (audio_path : path)
  | CallSplit (audio_path : path)
  | CallTranscribe (audio_path : path) (with_segments : bool)
  | CallDiarize (audio_path : path)
  | CallAlign
  | CallAggregate
  | CallInferRoles
  | CallAnalyzeText (text : pystr).

Record World := {
  files : gset path;
  trace : list event;
}.

Inductive outcome (A : Type) :=
  | Returned (a : A)
  | Raised (e : exn).
Arguments Returned {A} a.
Arguments Raised {A} e.

Definition M (A : Type) : Type := World -> outcome A * World.

Definition raise {A} (e : exn) : M A := fun w => (Raised e, w).

#[export] Instance M_ret : MRet M := fun A a w => (Returned a, w).
#[export] Instance M_bind : MBind M := fun A B k m w =>
  match m w with
  | (Returned a, w') => k a w'
  | (Raised e, w') => (Raised e, w')
  end.

Definition log (ev : event) : M unit :=
  fun w => (Returned tt, {| files := files w; trace := trace w ++ [ev] |}).
Definition create_file (p : path) : M unit :=
  fun w => (Returned tt, {| files := {[p]} ∪ files w; trace := trace w |}).
(** [x.get(...)] on a value that may be [None]. *)
Definition deref {A} (o : option A) : M A :=
  match o with Some a => mret a | None => raise AttributeError end.

(** ** Collaborators *)

Record AudioProfile := {
  channels : Z;
  sample_rate : Z;
  duration_seconds : float;
  sample_width : Z;
  frame_rate : Z;
  format : pystr;
}.

Definition is_stereo (p : AudioProfile) : bool := (channels p =? 2)%Z.

(** A decoded audio file: its metadata and what the diarizer reads of it. *)
Record Audio := {
  audio_profile_of : AudioProfile;
  audio_signal : Signal;
}.

(** The dict [transcribe_file] returns; every key is read with a default. *)
Record Transcription := {
  tx_text : option pystr;
  tx_language : option pystr;
  tx_duration : option float;
  tx_segments : option (list WhisperSegment);
}.

(** The dict [analyze_text] returns. *)
Record Verdict := {
  v_overall : pystr;
  v_score : float;
  v_confidence : float;
}.

Record Env := {
  (** [AudioSegment.from_file] and [librosa.load]; [None] when decoding fails *)
  decode : path -> option Audio;
  (** the names [tempfile.NamedTemporaryFile] gives the two channel files *)
  tmp_left : path;
  tmp_right : path;
  (** [transcriber.transcribe_file]; [None] on any transcription failure *)
  transcribe_file : path -> bool -> option Transcription;
  model_name : pystr;
  device : pystr;
  (** [sentiment_analyzer.analyze_text], when an analyzer is configured *)
  sentiment_analyzer : option (pystr -> Verdict);
}.

(** [sentiment_by_role]: the empty dict without an analyzer, else the three
    keys, [operator] and [client] possibly [None]. *)
Inductive SentimentByRole :=
  | NoSentiment
  | RoleSentiment (operator client : option Verdict) (overall : Verdict).

Inductive role_key := KOperator | KClient | KOverall.

(** [sentiment.get(key)] *)
Definition sentiment_get (s : SentimentByRole) (k : role_key) : option Verdict :=
  match s, k with
  | NoSentiment, _ => None
  | RoleSentiment operator _ _, KOperator => operator
  | RoleSentiment _ client _, KClient => client
  | RoleSentiment _ _ overall, KOverall => Some overall
  end.

(** ** The facade: [SpeakerRoleAnalyzer] *)

Record TranscriptResult := {
  tr_text : pystr;
  tr_language : pystr;
  tr_duration : float;
  tr_model_used : pystr;
  tr_device_used : pystr;
  tr_char_count : Z;
  tr_segments : list AlignedSegment;
  tr_transcript_by_speaker : list SpeakerTranscript;
  tr_role_mapping : RoleMapping;
  tr_speaking_balance : SpeakingBalance;
  tr_sentiment_by_role : SentimentByRole;
}.

Record SpeakerSummary := {
  ss_speakers : list SpeakerTranscript;
  ss_role_mapping : RoleMapping;
  ss_sentiment_by_role : SentimentByRole;
  ss_speaking_balance : SpeakingBalance;
  ss_audio_profile : AudioProfile;
}.

(** The dict [process_audio] returns (the [filename] key, the base name of
    the path, is left out). *)
Record ProcessResult := {
  pr_transcript : TranscriptResult;
  pr_audio_profile : AudioProfile;
  pr_speaker_summary : SpeakerSummary;
}.

Definition stereo_role_mapping : RoleMapping :=
  {| rm_operator := Some (py "channel_left");
     rm_client := Some (py "channel_right");
     rm_confidence := 0.95;
     rm_strategy := py "stereo_channel_mapping";
     rm_uncertain := None;
     rm_notes := Some (py "Canal izquierdo forzado a operador por policy") |}.

Section Facade.
Context `{CaseMapping} (env : Env).

Definition detect_audio_profile (audio_path : path) : M AudioProfile :=
  log (CallDetectProfile audio_path);;
  match decode env audio_path with
  | Some audio => mret (audio_profile_of audio)
  | None => raise DecodingError
  end.

(** The two temporary files are created with [delete=False] and written by
    [export]; their names are returned. *)
Definition split_stereo_channels (audio_path : path) : M (path * path) :=
  log (CallSplit audio_path);;
  match decode env audio_path with
  | None => raise DecodingError
  | Some audio =>
      if negb (channels (audio_profile_of audio) =? 2)%Z
      then raise ValueError
      else
        create_file (tmp_left env);;
        create_file (tmp_right env);;
        mret (tmp_left env, tmp_right env)
  end.

Definition call_transcribe (audio_path : path) (with_segments : bool)
  : M (option Transcription) :=
  log (CallTranscribe audio_path with_segments);;
  mret (transcribe_file env audio_path with_segments).

Definition call_diarize (d : LightweightDiarizer) (audio_path : path)
  : M (list SpeakerSegment) :=
  log (CallDiarize audio_path);;
  match decode env audio_path with
  | Some audio => mret (diarize d (audio_signal audio))
  | None => raise DecodingError
  end.

Definition call_analyze_text (analyzer : pystr -> Verdict) (text : pystr)
  : M Verdict :=
  log (CallAnalyzeText text);;
  mret (analyzer text).

(** [" ".join(entry.get("text", "") for entry in ... if entry.get("role") == role)] *)
Definition role_text (role : pystr) (transcript_by_speaker : list SpeakerTranscript)
  : pystr :=
  join space
    (st_text <$>
     List.filter (fun entry => bool_decide (st_role entry = Some role))
                 transcript_by_speaker).

(** [analyze_text(text) if text else None] *)
Definition analyze_if_text (analyzer : pystr -> Verdict) (text : pystr)
  : M (option Verdict) :=
  if truthy text
  then v ← call_analyze_text analyzer text; mret (Some v)
  else mret None.

Definition _sentiment_for_roles (transcript_by_speaker : list SpeakerTranscript)
    (combined_text : pystr) : M SentimentByRole :=
  match sentiment_analyzer env with
  | None => mret NoSentiment
  | Some analyzer =>
      let operator_text := role_text (py "operator") transcript_by_speaker in
      let client_text := role_text (py "client") transcript_by_speaker in
      operator ← analyze_if_text analyzer operator_text;
      client ← analyze_if_text analyzer client_text;
      overall ← call_analyze_text analyzer combined_text;
      mret (RoleSentiment operator client overall)
  end.

Definition _build_speaker_summary (transcript_by_speaker : list SpeakerTranscript)
    (role_mapping : RoleMapping) (sentiment : SentimentByRole)
    (profile : AudioProfile) : SpeakerSummary :=
  {| ss_speakers := transcript_by_speaker;
     ss_role_mapping := role_mapping;
     ss_sentiment_by_role := sentiment;
     ss_speaking_balance := _compute_speaking_balance transcript_by_speaker;
     ss_audio_profile := profile |}.

Definition channel_entry (speaker role : pystr) (tx : Transcription)
    (profile : AudioProfile) : SpeakerTranscript :=
  {| st_speaker := speaker;
     st_role := Some role;
     st_text := get_str (tx_text tx) [];
     st_duration := get_float (tx_duration tx) (duration_seconds profile / 2);
     st_segments := [];
     st_word_count := Z.of_nat (length (split (get_str (tx_text tx) []))) |}.

Definition _process_stereo (audio_path : path) (profile : AudioProfile)
  : M ProcessResult :=
  '(left_path, right_path) ← split_stereo_channels audio_path;
  operator_tx ← call_transcribe left_path false;
  client_tx ← call_transcribe right_path false;
  operator_tx ← deref operator_tx;
  client_tx ← deref client_tx;
  let transcript_by_speaker :=
    [ channel_entry (py "channel_left") (py "operator") operator_tx profile;
      channel_entry (py "channel_right") (py "client") client_tx profile ] in
  let combined_text := _build_labeled_transcript transcript_by_speaker in
  let role_mapping := stereo_role_mapping in
  sentiment ← _sentiment_for_roles transcript_by_speaker combined_text;
  let speaking_balance := _compute_speaking_balance transcript_by_speaker in
  let language :=
    let l := get_str (tx_language operator_tx) (py "es") in
    if truthy l then l else get_str (tx_language client_tx) (py "es") in
  let transcript_result :=
    {| tr_text := combined_text;
       tr_language := language;
       tr_duration := duration_seconds profile;
       tr_model_used := model_name env;
       tr_device_used := device env;
       tr_char_count := Z.of_nat (length combined_text);
       tr_segments := [];
       tr_transcript_by_speaker := transcript_by_speaker;
       tr_role_mapping := role_mapping;
       tr_speaking_balance := speaking_balance;
       tr_sentiment_by_role := sentiment |} in
  mret {| pr_transcript := transcript_result;
          pr_audio_profile := profile;
          pr_speaker_summary :=
            _build_speaker_summary transcript_by_speaker role_mapping
                                   sentiment profile |}.

Definition _process_mono (audio_path : path) (profile : AudioProfile)
  : M ProcessResult :=
  diar_segments ← call_diarize default_diarizer audio_path;
  whisper_result ← call_transcribe audio_path true;
  whisper_result ← deref whisper_result;
  let whisper_segments := default [] (tx_segments whisper_result) in
  aligned_segments ←
    (log CallAlign;; mret (_align_segments whisper_segments diar_segments));
  transcript_by_speaker ←
    (log CallAggregate;; mret (_aggregate_by_speaker aligned_segments));
  role_mapping ← (log CallInferRoles;; mret (_infer_roles transcript_by_speaker));
  let combined_text := _build_labeled_transcript transcript_by_speaker in
  sentiment ← _sentiment_for_roles transcript_by_speaker combined_text;
  let speaking_balance := _compute_speaking_balance transcript_by_speaker in
  let transcript_result :=
    {| tr_text := combined_text;
       tr_language := get_str (tx_language whisper_result) (py "es");
       tr_duration :=
         get_float (tx_duration whisper_result) (duration_seconds profile);
       tr_model_used := model_name env;
       tr_device_used := device env;
       tr_char_count := Z.of_nat (length combined_text);
       tr_segments := aligned_segments;
       tr_transcript_by_speaker := transcript_by_speaker;
       tr_role_mapping := role_mapping;
       tr_speaking_balance := speaking_balance;
       tr_sentiment_by_role := sentiment |} in
  mret {| pr_transcript := transcript_result;
          pr_audio_profile := profile;
          pr_speaker_summary :=
            _build_speaker_summary transcript_by_speaker role_mapping
                                   sentiment profile |}.

Definition process_audio (audio_path : path) : M ProcessResult :=
  audio_profile ← detect_audio_profile audio_path;
  if is_stereo audio_profile
  then _process_stereo audio_path audio_profile
  else _process_mono audio_path audio_profile.
End Facade.

(** ** Specification-level readings used by the theorems *)

(** The distinct labels of a list, in order of first appearance. *)
Fixpoint first_appearance (labels : list pystr) : list pystr :=
  match labels with
  | [] => []
  | l :: ls =>
      l :: List.filter (fun l' => negb (bool_decide (l' = l))) (first_appearance ls)
  end.

(** The aligned segments of one speaker, in input order. *)
Definition group_of (speaker : pystr) (segs : list AlignedSegment)
  : list AlignedSegment :=
  List.filter (fun seg => bool_decide (al_speaker seg = speaker)) segs.

(** Every fragment trimmed, all of them joined by one space, then trimmed. *)
Definition group_text (group : list AlignedSegment) : pystr :=
  strip (join space ((fun seg => strip (al_text seg)) <$> group)).

(** The text the design describes: only the non-empty trimmed fragments are
    joined. *)
Definition group_text_nonempty (group : list AlignedSegment) : pystr :=
  strip (join space
           (List.filter truthy ((fun seg => strip (al_text seg)) <$> group))).

(** The running sum of [max(end - start, 0)], from [0.0], in input order. *)
Definition group_duration (group : list AlignedSegment) : float :=
  fold_left (fun acc seg => acc + py_max (al_end seg - al_start seg) 0) group 0.

Definition group_entry (speaker : pystr) (group : list AlignedSegment)
  : SpeakerTranscript :=
  {| st_speaker := speaker; st_role := None;
     st_text := group_text group;
     st_duration := group_duration group;
     st_segments := group;
     st_word_count := Z.of_nat (length (split (group_text group))) |}.

(** [needle] occurs in [hay] as a run of consecutive code points. *)
Definition is_substring (needle hay : pystr) : Prop :=
  exists before after, hay = before ++ needle ++ after.

(** [matches_count text cues n]: exactly [n] of the phrases listed in [cues]
    occur in [text]. *)
Inductive matches_count (text : pystr) : list pystr -> nat -> Prop :=
  | matches_nil : matches_count text [] 0
  | matches_hit cue cues n :
      is_substring cue text -> matches_count text cues n ->
      matches_count text (cue :: cues) (S n)
  | matches_miss cue cues n :
      ~ is_substring cue text -> matches_count text cues n ->
      matches_count text (cue :: cues) n.

(** [clamp(x, lo, hi)] as the design writes it: [lo] below [lo], [hi] above
    [hi], [x] in between. *)
Definition clamp (x lo hi : float) : float :=
  if x <? lo then lo else if hi <? x then hi else x.

(** Every value a speaker score can take: the entry is first or not, and at
    most seven operator cues and six client cues match. *)
Definition all_scores : list float :=
  first ← [true; false];
  n_operator ← seq 0 (S (length OPERATOR_CUES));
  n_client ← seq 0 (S (length CLIENT_CUES));
  [score_of first n_operator n_client].

(** [<] is asymmetric on the values of [D] ... *)
Definition lt_asym_on (D : list float) : bool :=
  forallb (fun x => forallb (fun y => implb (x <? y) (negb (y <? x))) D) D.

(** ... and its complement [>=] is transitive on them. *)
Definition ge_trans_on (D : list float) : bool :=
  forallb (fun x => forallb (fun y => forallb (fun z =>
    implb (negb (x <? y)) (implb (negb (y <? z)) (negb (x <? z)))) D) D) D.

(** The clamp lands in [0.2, 0.95] on every difference of two scores. *)
Definition clamp_bounded_on (D : list float) : bool :=
  forallb (fun x => forallb (fun y =>
    (0.2 <=? clamp_confidence (x - y)) && (clamp_confidence (x - y) <=? 0.95)) D) D.

(** [a] ranks at or above [b]: its score is not strictly smaller. *)
Definition score_ge (a b : pystr * float) : Prop := (a.2 <? b.2) = false.

(** The words of the entries that count for a role. *)
Definition role_words (role : pystr) (entries : list SpeakerTranscript) : Z :=
  foldr (fun entry acc =>
           ((if decide (role_or_speaker entry = role)
             then st_word_count entry else 0) + acc)%Z)
        0%Z entries.

(** The percentage as a rational number, before any rounding. *)
Definition exact_percentage (words total : Z) : Q :=
  (inject_Z words / inject_Z total * 100)%Q.

(** The balance of a transcript with no operator or client words. *)
Definition no_data_balance : SpeakingBalance :=
  {| operator_percentage := 0; client_percentage := 0;
     operator_words := None; client_words := None; unit_ := None;
     balance_quality := py "SIN_DATOS"; note := Some (py "sin palabras") |}.

(** The calls only the mono path makes. *)
Definition mono_only_call (ev : event) : bool :=
  match ev with
  | CallDiarize _ | CallAlign | CallAggregate | CallInferRoles => true
  | _ => false
  end.

(** The sign of a float: zero, NaN, or a positive finite or infinite value. *)
Definition sf_nonneg (f : spec_float) : bool :=
  match f with
  | S754_zero _ | S754_nan => true
  | S754_infinity s | S754_finite s _ _ => negb s
  end.

(** The dict as a loop leaves it: a table over its keys. *)
Definition table {V : Type} (f : pystr -> V) (keys : list pystr) : list (pystr * V) :=
  (fun k => (k, f k)) <$> keys.

(** The entry of a speaker while the first loop runs: text not yet trimmed,
    words not yet counted. *)
Definition raw_entry (speaker : pystr) (group : list AlignedSegment)
  : SpeakerTranscript :=
  {| st_speaker := speaker; st_role := None;
     st_text := concat ((fun seg => strip (al_text seg) ++ space) <$> group);
     st_duration := group_duration group;
     st_segments := group;
     st_word_count := 0 |}.

(** What [diarize] keeps of the loop state once the loop is over. *)
Definition final_segments (hop : Z) (st : ScanState) : list SpeakerSegment :=
  if active st then emit hop st else segments st.

(** The loop variables seen as a state of the machine. *)
Definition vad_of (st : ScanState) : vad_state :=
  if active st then Active (start_frame st) (last_active_frame st) else Inactive.

(** An item whose score is one of [all_scores]. *)
Definition scored (a : pystr * float) : Prop := a.2 ∈ all_scores.

(** The [scores] dict of a list of entries with distinct labels. *)
Definition score_items `{CaseMapping} (entries : list SpeakerTranscript) : list (pystr * float) :=
  imap (fun k entry => (st_speaker entry, speaker_score (Z.of_nat k) entry)) entries.

(** The calls the aggregator makes for a role text: one when it is not empty. *)
Definition role_calls (text : pystr) : list event :=
  if truthy text then [CallAnalyzeText text] else [].

(** The value stored for a role: null when its text is empty. *)
Definition role_verdict (analyzer : pystr -> Verdict) (text : pystr) : option Verdict :=
  if truthy text then Some (analyzer text) else None.

(** The world after more calls. *)
Definition extend (w : World) (evs : list event) : World :=
  {| files := files w; trace := trace w ++ evs |}.

Section FacadeVocabulary.
Context `{CaseMapping} (env : Env).

(** The world once the splitter and both channel transcriptions have run. *)
Definition stereo_world (audio_path : path) (w : World) (calls : list event)
  : World :=
  {| files := {[tmp_right env]} ∪ ({[tmp_left env]} ∪ files w);
     trace := trace w ++ [CallSplit audio_path;
                          CallTranscribe (tmp_left env) false;
                          CallTranscribe (tmp_right env) false] ++ calls |}.

(** The two entries the stereo path builds. *)
Definition stereo_entries (operator_tx client_tx : Transcription)
    (profile : AudioProfile) : list SpeakerTranscript :=
  [ channel_entry (py "channel_left") (py "operator") operator_tx profile;
    channel_entry (py "channel_right") (py "client") client_tx profile ].

(** The analyzer's calls on a list of entries and their labeled transcript. *)
Definition sentiment_calls (entries : list SpeakerTranscript) : list event :=
  match sentiment_analyzer env with
  | None => []
  | Some _ =>
      role_calls (role_text (py "operator") entries)
      ++ role_calls (role_text (py "client") entries)
      ++ [CallAnalyzeText (_build_labeled_transcript entries)]
  end.

(** The value [_sentiment_for_roles] returns on them. *)
Definition sentiment_result (entries : list SpeakerTranscript) : SentimentByRole :=
  match sentiment_analyzer env with
  | None => NoSentiment
  | Some analyzer =>
      RoleSentiment (role_verdict analyzer (role_text (py "operator") entries))
                    (role_verdict analyzer (role_text (py "client") entries))
                    (analyzer (_build_labeled_transcript entries))
  end.

End FacadeVocabulary.


(** ** A caller: the KPI speaking balance (scripts/lib_kpis.py) *)

(** [s.split(sep)] on a one-character separator: every piece between two
    separators, the empty ones included. [cur] is the piece being read,
    reversed. *)
Fixpoint split_on_from (sep : pychar) (cur : pystr) (s : pystr) : list pystr :=
  match s with
  | [] => [rev cur]
  | c :: s' =>
      if (c =? sep)%N then rev cur :: split_on_from sep [] s'
      else split_on_from sep (c :: cur) s'
  end.

Definition split_on (sep : pychar) (s : pystr) : list pystr :=
  split_on_from sep [] s.

(** The dict [_calculate_speaking_balance] returns (its constant ["type"]
    key is left out); a key a branch does not set is [None]. *)
Record KpiBalance := {
  kb_value : option float;
  kb_operator_percentage : option float;
  kb_client_percentage : option float;
  kb_operator_words : option Z;
  kb_client_words : option Z;
  kb_balance_quality : option pystr;
  kb_unit : pystr;
  kb_note : option pystr;
}.

(** [[l for l in transcript.split('\n') if l.strip()]] *)
Definition nonblank_lines (transcript : pystr) : list pystr :=
  List.filter (fun l => truthy (strip l)) (split_on 10%N transcript).

(** [len(' '.join(lines).split())] *)
Definition words_of_lines (lines : list pystr) : Z :=
  Z.of_nat (length (split (join space lines))).

(** [speaker_summary] is [None] for a missing or empty summary; a summary
    always holds its ["speaking_balance"] dict, which is not empty. *)
Definition _calculate_speaking_balance (transcript : pystr)
    (speaker_summary : option SpeakerSummary) : KpiBalance :=
  match speaker_summary with
  | Some summary =>
      let balance := ss_speaking_balance summary in
      {| kb_value := None;
         kb_operator_percentage := Some (operator_percentage balance);
         kb_client_percentage := Some (client_percentage balance);
         kb_operator_words := Some (default 0%Z (operator_words balance));
         kb_client_words := Some (default 0%Z (client_words balance));
         kb_balance_quality := Some (balance_quality balance);
         kb_unit := default (py "porcentaje") (unit_ balance);
         kb_note := Some (py "calculado_con_diarizacion") |}
  | None =>
      let lines := nonblank_lines transcript in
      match lines with
      | [] =>
          {| kb_value := Some 0.5;
             kb_operator_percentage := None; kb_client_percentage := None;
             kb_operator_words := None; kb_client_words := None;
             kb_balance_quality := None;
             kb_unit := py "ratio";
             kb_note := Some (py "Sin datos para calcular") |}
      | _ =>
          let mid := (length lines / 2)%nat in
          let speaker1_words := words_of_lines (take mid lines) in
          let speaker2_words := words_of_lines (drop mid lines) in
          let total_words := (speaker1_words + speaker2_words)%Z in
          let ratio :=
            if (0 <? total_words)%Z then int_truediv speaker1_words total_words
            else 0 in
          let operator_percentage := ratio * 100 in
          let client_percentage := (1 - ratio) * 100 in
          let balance_quality :=
            if (35 <? operator_percentage) && (operator_percentage <? 55)
            then py "BUENO" else py "DESBALANCEADO" in
          {| kb_value := None;
             kb_operator_percentage := Some operator_percentage;
             kb_client_percentage := Some client_percentage;
             kb_operator_words := Some speaker1_words;
             kb_client_words := Some speaker2_words;
             kb_balance_quality := Some balance_quality;
             kb_unit := py "porcentaje";
             kb_note := None |}
      end
  end.

(** ** Readings for the further properties *)

(** Frame spans in scan order: each one non-empty and inside [lo, hi], each
    next one starting at least one frame after the previous one ends. *)
Fixpoint spans_ordered (lo hi : Z) (spans : list (Z * Z)) : Prop :=
  match spans with
  | [] => True
  | (s, e) :: rest => (lo <= s /\ s < e /\ e <= hi)%Z /\ spans_ordered (e + 1)%Z hi rest
  end.

(** Frame [i] of [frames] is at or above the threshold. *)
Definition voiced (thr : float) (frames : list float) (i : Z) : Prop :=
  (0 <= i)%Z /\
  exists energy, frames !! Z.to_nat i = Some energy /\ (thr <=? energy) = true.

(** The frames seen so far agree with a state of the machine: an open span
    starts and was last extended on voiced frames. *)
Definition vad_state_ok (thr : float) (seen : list float) (st : vad_state) : Prop :=
  match st with
  | Inactive => True
  | Active s l =>
      (s <= l /\ l < Z.of_nat (length seen))%Z /\
      voiced thr seen s /\ voiced thr seen l
  end.

(** The clamp lands in [0, 1] on every difference of two scores. *)
Definition confidence_unit_on (D : list float) : bool :=
  forallb (fun x => forallb (fun y =>
    (0 <=? clamp_confidence (x - y)) && (clamp_confidence (x - y) <=? 1)) D) D.

(** An entry that counts for the balance: its role (or, without one, its
    label) is "operator" or "client". *)
Definition counts_for_balance (entry : SpeakerTranscript) : bool :=
  bool_decide (role_or_speaker entry = py "operator")
  || bool_decide (role_or_speaker entry = py "client").

(** The calls a run added to the trace. *)
Definition new_calls (w w' : World) : list event :=
  drop (length (trace w)) (trace w').

Definition is_transcribe_call (ev : event) : bool :=
  match ev with CallTranscribe _ _ => true | _ => false end.

(** A string with no whitespace at either end. *)
Definition trimmed_line (l : pystr) : Prop :=
  l <> [] /\ lstrip l = l /\ rstrip l = l.

(** The words of all entries together. *)
Definition word_total (entries : list SpeakerTranscript) : Z :=
  foldr (fun entry acc => (st_word_count entry + acc)%Z) 0%Z entries.

(** The whitespace-separated words of the texts of aligned segments. *)
Definition segment_words (segs : list AlignedSegment) : list pystr :=
  segs ≫= (fun seg => split (al_text seg)).

(** ** Example inputs *)

Definition entry_of (speaker text : pystr) : SpeakerTranscript :=
  {| st_speaker := speaker; st_role := None; st_text := text; st_duration := 0;
     st_segments := []; st_word_count := Z.of_nat (length (split text)) |}.

(** Two speakers: a greeting with a self-introduction, and a complaint. *)
Definition greeting_and_complaint : list SpeakerTranscript :=
  [ entry_of speaker_1 (py "Buenos dias, mi nombre es Ana");
    entry_of speaker_2 (py "No puedo pagar la cuota este mes") ].

(** Two entries that carry the same speaker label. *)
Definition repeated_label : list SpeakerTranscript :=
  [ entry_of speaker_1 (py "buenos dias");
    entry_of speaker_1 (py "no puedo pagar") ].

(** Three segments of one speaker; the middle one has no text. *)
Definition gap_segments : list AlignedSegment :=
  [ {| al_speaker := speaker_1; al_start := 0; al_end := 1;
       al_text := py "a"; al_confidence := 0.5 |};
    {| al_speaker := speaker_1; al_start := 1; al_end := 2;
       al_text := []; al_confidence := 0.5 |};
    {| al_speaker := speaker_1; al_start := 2; al_end := 3;
       al_text := py "b"; al_confidence := 0.5 |} ].

(** An operator with one word and a client with two. *)
Definition one_word_two_words : list SpeakerTranscript :=
  [ {| st_speaker := py "channel_left"; st_role := Some (py "operator");
       st_text := py "hola"; st_duration := 1; st_segments := [];
       st_word_count := 1 |};
    {| st_speaker := py "channel_right"; st_role := Some (py "client");
       st_text := py "necesito ayuda"; st_duration := 1; st_segments := [];
       st_word_count := 2 |} ].

(** One second of silence: three frames of zero energy. *)
Definition silent_signal : Signal :=
  {| n_samples := 16000; rms_norm := [0; 0; 0]; rms_mean := 0 |}.

Definition neutral_analyzer (text : pystr) : Verdict :=
  {| v_overall := py "neutral"; v_score := 0.5; v_confidence := 0 |}.

(** An environment in which every file decodes with the given number of
    channels and every transcription succeeds. *)
Definition example_env (n_channels : Z) : Env :=
  {| decode := fun _ =>
       Some {| audio_profile_of :=
                 {| channels := n_channels; sample_rate := 16000;
                    duration_seconds := 1; sample_width := 2;
                    frame_rate := 16000; format := py ".wav" |};
               audio_signal := silent_signal |};
     tmp_left := "/tmp/tmpa_left.wav";
     tmp_right := "/tmp/tmpb_right.wav";
     transcribe_file := fun _ _ =>
       Some {| tx_text := Some (py "hola buenos dias");
               tx_language := Some (py "es");
               tx_duration := Some 1;
               tx_segments :=
                 Some [ {| ws_start := Some 0; ws_end := Some 1;
                           ws_text := Some (py "hola buenos dias") |} ] |};
     model_name := py "base";
     device := py "cpu";
     sentiment_analyzer := Some neutral_analyzer |}.

Definition example_audio (n_channels : Z) : Audio :=
  {| audio_profile_of :=
       {| channels := n_channels; sample_rate := 16000;
          duration_seconds := 1; sample_width := 2;
          frame_rate := 16000; format := py ".wav" |};
     audio_signal := silent_signal |}.

Definition empty_world : World := {| files := ∅; trace := [] |}.

(** Two speakers whose texts hold no cue phrase. *)
Definition two_plain_speakers : list SpeakerTranscript :=
  [ entry_of speaker_1 (py "hola"); entry_of speaker_2 (py "gracias") ].

(** * Verification *)

(** ** Floating-point facts, from the specification of the primitives *)

Lemma SFcompare_Lt_Gt x y : SFcompare x y = Some Lt -> SFcompare y x = Some Gt.
Proof.
  destruct x as [sx|sx| |sx mx ex], y as [sy|sy| |sy my ey]; simpl;
    try discriminate;
    try (destruct sx; try destruct sy; simpl; congruence);
    try (destruct sy; simpl; congruence).
  destruct sx, sy; try congruence;
    rewrite (Z.compare_antisym ex ey); destruct (ex ?= ey)%Z; simpl; try congruence;
    change (PosDef.Pos.compare_cont Eq) with Pos.compare;
    rewrite (Pos.compare_antisym mx my); destruct (mx ?= my)%positive; simpl;
    congruence.
Qed.

(** A float strictly below another is not at or above it. *)
Lemma ltb_not_geb (x y : float) : (x <? y) = true -> (y <=? x) = false.
Proof.
  rewrite FloatAxioms.ltb_spec, FloatAxioms.leb_spec. unfold SFltb, SFleb.
  destruct (SFcompare (Prim2SF x) _) as [[]|] eqn:E; try discriminate.
  intros _. by rewrite (SFcompare_Lt_Gt _ _ E).
Qed.

Lemma geb_not_ltb (x y : float) : (y <=? x) = true -> (x <? y) = false.
Proof.
  intros Hge. destruct (x <? y) eqn:E; [|done].
  apply ltb_not_geb in E. congruence.
Qed.

Lemma not_ltb_zero (x : float) : (x <? 0) = false <-> sf_nonneg (Prim2SF x) = true.
Proof.
  rewrite FloatAxioms.ltb_spec. change (Prim2SF 0) with (S754_zero false).
  unfold SFltb. destruct (Prim2SF x) as [s|s| |s m e]; simpl;
    try destruct s; simpl; intuition congruence.
Qed.

Lemma binary_round_aux_nonneg m e l :
  sf_nonneg (binary_round_aux prec emax false m e l) = true.
Proof.
  unfold binary_round_aux.
  destruct (shr_fexp prec emax m e l) as [mrs' e'].
  destruct (shr_fexp _ _ _ e' _) as [mrs'' e''].
  destruct (shr_m mrs''); [done| |done].
  by destruct (_ <=? _)%Z.
Qed.

Lemma SFadd_nonneg x y :
  sf_nonneg x = true -> sf_nonneg y = true -> sf_nonneg (SF64add x y) = true.
Proof.
  destruct x as [sx|sx| |sx mx ex], y as [sy|sy| |sy my ey]; simpl;
    try done; try (destruct sx; try destruct sy; done);
    try (destruct sy; done).
  destruct sx, sy; try done. intros _ _.
  unfold SF64add, SFadd. simpl cond_Zopp.
  unfold binary_normalize, binary_round.
  destruct (shl_align mx _ _) as [ax ?], (shl_align my _ _) as [ay ?].
  cbn [fst]. change (Z.pos ax + Z.pos ay)%Z with (Z.pos (ax + ay)). cbv iota.
  destruct (shl_align (ax + ay) _ _) as [mz ez].
  apply binary_round_aux_nonneg.
Qed.

Lemma add_nonneg (x y : float) :
  (x <? 0) = false -> (y <? 0) = false -> (x + y <? 0) = false.
Proof.
  rewrite !not_ltb_zero, FloatAxioms.add_spec. apply SFadd_nonneg.
Qed.

Lemma py_max_zero_nonneg (x : float) : (py_max x 0 <? 0) = false.
Proof.
  unfold py_max. destruct (x <? 0) eqn:E; [reflexivity | exact E].
Qed.

(** ** Strings *)

Lemma lstrip_app_space (s : pystr) :
  lstrip (s ++ space) = match lstrip s with [] => [] | _ => lstrip s ++ space end.
Proof.
  induction s as [|c s IH]; simpl; [done|].
  destruct (isspace c); [exact IH | done].
Qed.

Lemma rstrip_app_space (s : pystr) : rstrip (s ++ space) = rstrip s.
Proof. unfold rstrip. by rewrite rev_app_distr. Qed.

Lemma strip_app_space (s : pystr) : strip (s ++ space) = strip s.
Proof.
  unfold strip. rewrite lstrip_app_space.
  destruct (lstrip s) eqn:E; [done|].
  apply rstrip_app_space.
Qed.

(** Each part followed by the separator is the join followed by it. *)
Lemma concat_sep_join (sep : pystr) (parts : list pystr) :
  parts <> [] ->
  concat ((fun p => p ++ sep) <$> parts) = join sep parts ++ sep.
Proof.
  induction parts as [|p ps IH]; [done|]. intros _.
  destruct ps as [|q ps].
  - simpl. by rewrite app_nil_r.
  - change (concat ((fun p => p ++ sep) <$> p :: q :: ps))
      with ((p ++ sep) ++ concat ((fun p => p ++ sep) <$> q :: ps)).
    rewrite IH by done.
    change (join sep (p :: q :: ps)) with (p ++ sep ++ join sep (q :: ps)).
    by rewrite <- !app_assoc.
Qed.

(** ** SegmentAligner *)

Lemma align_is_map (whisper : list WhisperSegment) (diar : list SpeakerSegment) :
  _align_segments whisper diar = align_one diar <$> whisper.
Proof.
  unfold _align_segments.
  enough (Hgen : forall acc,
    fold_left (fun aligned ws => aligned ++ [align_one diar ws]) whisper acc
    = acc ++ (align_one diar <$> whisper)) by apply (Hgen []).
  induction whisper as [|ws whisper IH]; intros acc; simpl.
  - by rewrite app_nil_r.
  - rewrite IH, <- app_assoc. done.
Qed.

(** [find] returns the first element that satisfies the test. *)
Lemma find_first_match {A} (f : A -> bool) (l : list A) :
  match List.find f l with
  | Some x =>
      exists j, l !! j = Some x /\ f x = true /\
                forall j' y, (j' < j)%nat -> l !! j' = Some y -> f y = false
  | None => forall y, y ∈ l -> f y = false
  end.
Proof.
  induction l as [|a l IH]; simpl.
  - intros y Hy. by apply elem_of_nil in Hy.
  - destruct (f a) eqn:Ha.
    + exists 0%nat. repeat split; [done|]. intros j' y Hlt. lia.
    + destruct (List.find f l) as [x|].
      * destruct IH as (j & Hj & Hx & Hbefore).
        exists (S j). repeat split; [done..|].
        intros [|j'] y Hlt Hy; simpl in Hy.
        -- congruence.
        -- apply (Hbefore j'); [lia | done].
      * intros y [->|Hy]%elem_of_cons; [done | by apply IH].
Qed.

(** C5. The aligner returns one aligned segment per transcript segment, in the
    same order; the i-th one keeps the start, end and text of the i-th
    transcript segment. With midpoint = (start + end) / 2, it takes speaker
    and confidence from the first diarized segment ds with
    ds.start <= midpoint and midpoint <= ds.end (every diarized segment
    before it fails one of the two comparisons), and is "speaker_1" with
    confidence 0.3 when every diarized segment fails one of them. *)
Theorem align_segments_first_match (whisper : list WhisperSegment)
    (diar : list SpeakerSegment) :
  length (_align_segments whisper diar) = length whisper /\
  forall i ws, whisper !! i = Some ws ->
    let midpoint := (get_float (ws_start ws) 0 + get_float (ws_end ws) 0) / 2 in
    exists a, _align_segments whisper diar !! i = Some a /\
      al_start a = get_float (ws_start ws) 0 /\
      al_end a = get_float (ws_end ws) 0 /\
      al_text a = get_str (ws_text ws) [] /\
      ((exists j ds, diar !! j = Some ds /\
          (seg_start ds <=? midpoint) = true /\
          (midpoint <=? seg_end ds) = true /\
          (forall j' ds', (j' < j)%nat -> diar !! j' = Some ds' ->
             (seg_start ds' <=? midpoint) = false \/
             (midpoint <=? seg_end ds') = false) /\
          al_speaker a = seg_speaker ds /\ al_confidence a = seg_confidence ds)
       \/ ((forall ds, ds ∈ diar ->
              (seg_start ds <=? midpoint) = false \/
              (midpoint <=? seg_end ds) = false) /\
           al_speaker a = speaker_1 /\ al_confidence a = 0.3)).
Proof.
  rewrite align_is_map. split; [by rewrite length_fmap|].
  intros i ws Hi midpoint.
  exists (align_one diar ws). split; [by rewrite list_lookup_fmap, Hi|].
  repeat split.
  unfold align_one. fold midpoint.
  pose proof (find_first_match (covers midpoint) diar) as Hfind.
  destruct (List.find (covers midpoint) diar) as [ds|]; simpl.
  - left. destruct Hfind as (j & Hj & Hcov & Hbefore).
    apply andb_true_iff in Hcov as [Hlo Hhi].
    exists j, ds. split; [done|]. split; [done|]. split; [done|].
    split; [|done]. intros j' ds' Hlt Hds'.
    apply andb_false_iff. by apply (Hbefore j').
  - right. split; [|done]. intros ds Hds.
    apply andb_false_iff. by apply Hfind.
Qed.

(** ** SpeakerAggregator *)

Lemma first_appearance_elem (x : pystr) (labels : list pystr) :
  x ∈ first_appearance labels <-> x ∈ labels.
Proof.
  induction labels as [|l ls IH]; simpl; [done|].
  rewrite !elem_of_cons, <- IH, list_elem_of_In, filter_In, <- list_elem_of_In.
  rewrite negb_true_iff, bool_decide_eq_false.
  destruct (decide (x = l)); intuition.
Qed.

Lemma filter_snoc {A} (f : A -> bool) (l : list A) (x : A) :
  List.filter f (l ++ [x]) = List.filter f l ++ (if f x then [x] else []).
Proof. by rewrite List.filter_app. Qed.

Lemma filter_id {A} (f : A -> bool) (l : list A) :
  (forall x, x ∈ l -> f x = true) -> List.filter f l = l.
Proof.
  induction l as [|a l IH]; intros Hall; simpl; [done|].
  rewrite Hall by left. f_equal. apply IH. intros x Hx. apply Hall. by right.
Qed.

Lemma first_appearance_snoc (labels : list pystr) (x : pystr) :
  first_appearance (labels ++ [x]) =
  if bool_decide (x ∈ labels) then first_appearance labels
  else first_appearance labels ++ [x].
Proof.
  induction labels as [|l ls IH].
  - case_bool_decide as Hin; [by apply elem_of_nil in Hin | done].
  - change (first_appearance ((l :: ls) ++ [x]))
      with (l :: List.filter (fun l' => negb (bool_decide (l' = l)))
                             (first_appearance (ls ++ [x]))).
    rewrite IH. simpl first_appearance.
    destruct (decide (x = l)) as [->|Hne].
    + rewrite (bool_decide_eq_true_2 (l ∈ l :: ls)) by left.
      case_bool_decide; [done|].
      rewrite filter_snoc, bool_decide_eq_true_2 by done. simpl.
      by rewrite app_nil_r.
    + destruct (decide (x ∈ ls)) as [Hin|Hnin].
      * rewrite !bool_decide_eq_true_2; [done | by right | done].
      * rewrite !bool_decide_eq_false_2; [| by intros [?|?]%elem_of_cons | done].
        rewrite filter_snoc, bool_decide_eq_false_2 by done. done.
Qed.

Lemma first_appearance_NoDup (labels : list pystr) : NoDup (first_appearance labels).
Proof.
  induction labels as [|l ls IH]; simpl; [constructor|].
  constructor.
  - rewrite list_elem_of_In, filter_In, negb_true_iff, bool_decide_eq_false.
    intros [_ Hne]. done.
  - revert IH. generalize (first_appearance ls). intros fa Hnd.
    induction Hnd as [|a fa Ha Hnd IH']; simpl; [constructor|].
    destruct (negb _); [|done]. constructor; [|done].
    rewrite list_elem_of_In, filter_In, <- list_elem_of_In. tauto.
Qed.

Lemma dict_get_table {V : Type} (f : pystr -> V) (k : pystr) (keys : list pystr) :
  dict_get k (table f keys) = if bool_decide (k ∈ keys) then Some (f k) else None.
Proof.
  induction keys as [|k' keys IH].
  - case_bool_decide as Hin; [by apply elem_of_nil in Hin | done].
  - change (table f (k' :: keys)) with ((k', f k') :: table f keys).
    cbn [dict_get]. destruct (decide (k = k')) as [->|Hne].
    + by rewrite bool_decide_eq_true_2 by left.
    + rewrite IH. destruct (decide (k ∈ keys)).
      * by rewrite !bool_decide_eq_true_2 by (done || by right).
      * rewrite !bool_decide_eq_false_2; [done| |done].
        by intros [?|?]%elem_of_cons.
Qed.

Lemma dict_set_table {V} (f g : pystr -> V) (k : pystr) (keys : list pystr) :
  NoDup keys -> k ∈ keys -> (forall k', k' <> k -> g k' = f k') ->
  dict_set k (g k) (table f keys) = table g keys.
Proof.
  intros Hnd Hin Hfg. induction Hnd as [|k' keys Hk' Hnd IH];
    [by apply elem_of_nil in Hin|].
  change (table f (k' :: keys)) with ((k', f k') :: table f keys).
  change (table g (k' :: keys)) with ((k', g k') :: table g keys).
  cbn [dict_set]. destruct (decide (k = k')) as [->|Hne].
  - f_equal. apply list_fmap_ext. intros i x Hx.
    apply list_elem_of_lookup_2 in Hx.
    rewrite Hfg; [done | congruence].
  - rewrite (Hfg k') by congruence. f_equal. apply IH.
    by apply elem_of_cons in Hin as [?|?].
Qed.

Lemma dict_set_table_fresh {V} (f : pystr -> V) (k : pystr) (v : V)
    (keys : list pystr) :
  k ∉ keys -> dict_set k v (table f keys) = table f keys ++ [(k, v)].
Proof.
  induction keys as [|k' keys IH]; intros Hk; [done|].
  change (table f (k' :: keys)) with ((k', f k') :: table f keys).
  cbn [dict_set]. apply not_elem_of_cons in Hk as [Hne Hk].
  destruct (decide (k = k')); [done|]. simpl. f_equal. by apply IH.
Qed.

Lemma dict_set_last {V} (k : pystr) (v v' : V) (d : list (pystr * V)) :
  k ∉ dict_keys d -> dict_set k v' (d ++ [(k, v)]) = d ++ [(k, v')].
Proof.
  induction d as [|[k0 v0] d IH]; intros Hk; simpl.
  - by destruct (decide (k = k)).
  - apply not_elem_of_cons in Hk as [Hne Hk].
    destruct (decide (k = k0)); [done|]. f_equal. by apply IH.
Qed.

Lemma group_of_snoc (speaker : pystr) (segs : list AlignedSegment)
    (seg : AlignedSegment) :
  group_of speaker (segs ++ [seg]) =
  group_of speaker segs ++ (if bool_decide (al_speaker seg = speaker) then [seg] else []).
Proof. unfold group_of. by rewrite filter_snoc. Qed.

Lemma group_of_absent (speaker : pystr) (segs : list AlignedSegment) :
  speaker ∉ (al_speaker <$> segs) -> group_of speaker segs = [].
Proof.
  induction segs as [|seg segs IH]; intros Hk; [done|].
  apply not_elem_of_cons in Hk as [Hne Hk]. simpl.
  rewrite bool_decide_eq_false_2 by done. by apply IH.
Qed.

Lemma raw_entry_snoc (speaker : pystr) (group : list AlignedSegment)
    (seg : AlignedSegment) :
  raw_entry speaker (group ++ [seg]) =
  {| st_speaker := speaker; st_role := None;
     st_text := st_text (raw_entry speaker group) ++ (strip (al_text seg) ++ space);
     st_duration := st_duration (raw_entry speaker group)
                    + py_max (al_end seg - al_start seg) 0;
     st_segments := group ++ [seg];
     st_word_count := 0 |}.
Proof.
  unfold raw_entry, group_duration. simpl.
  rewrite fmap_app, concat_app, fold_left_app. simpl.
  by rewrite app_nil_r.
Qed.

(** The bucket after the first loop: one raw entry per label, labels in
    order of first appearance. *)
Lemma aggregate_bucket (segs : list AlignedSegment) :
  fold_left aggregate_step segs [] =
  table (fun sp => raw_entry sp (group_of sp segs))
        (first_appearance (al_speaker <$> segs)).
Proof.
  induction segs as [|seg segs IH] using rev_ind; [done|].
  rewrite fold_left_app, IH. cbn [fold_left].
  rewrite fmap_app. change (al_speaker <$> [seg]) with [al_speaker seg].
  rewrite first_appearance_snoc.
  set (k := al_speaker seg). set (labels := al_speaker <$> segs).
  unfold aggregate_step, dict_setdefault. fold k.
  rewrite dict_get_table.
  rewrite (bool_decide_ext (k ∈ first_appearance labels) (k ∈ labels))
    by apply first_appearance_elem.
  case_bool_decide as Hin.
  - cbn [st_speaker st_role st_text st_duration st_segments st_word_count raw_entry].
    rewrite <- (dict_set_table (fun sp => raw_entry sp (group_of sp segs))
                  (fun sp => raw_entry sp (group_of sp (segs ++ [seg]))) k).
    + f_equal. rewrite group_of_snoc. fold k.
      rewrite bool_decide_eq_true_2 by done. by rewrite raw_entry_snoc.
    + apply first_appearance_NoDup.
    + by apply first_appearance_elem.
    + intros k' Hne. rewrite group_of_snoc. fold k.
      rewrite bool_decide_eq_false_2 by done. by rewrite app_nil_r.
  - cbn [st_speaker st_role st_text st_duration st_segments st_word_count new_entry].
    rewrite dict_set_last.
    + unfold table. rewrite fmap_app. simpl. f_equal.
      * apply list_fmap_ext. intros i sp Hsp. f_equal. f_equal.
        rewrite group_of_snoc. fold k.
        rewrite bool_decide_eq_false_2, app_nil_r; [done|].
        intros Heq. apply Hin. rewrite Heq.
        apply first_appearance_elem. by eapply list_elem_of_lookup_2.
      * f_equal. f_equal. rewrite group_of_snoc. fold k.
        rewrite bool_decide_eq_true_2 by done.
        rewrite (group_of_absent k segs) by done. by rewrite raw_entry_snoc.
    + unfold dict_keys, table. rewrite <- list_fmap_compose.
      rewrite (list_fmap_ext _ id (first_appearance labels)) by done.
      rewrite list_fmap_id. by rewrite first_appearance_elem.
Qed.

Lemma normalize_raw_entry (speaker : pystr) (group : list AlignedSegment) :
  normalize_entry (raw_entry speaker group) = group_entry speaker group.
Proof.
  assert (strip (st_text (raw_entry speaker group)) = group_text group) as Htext.
  { unfold group_text. simpl. destruct group as [|seg group]; [done|].
    rewrite (list_fmap_compose (fun seg => strip (al_text seg)) (fun p => p ++ space)).
    rewrite concat_sep_join by done. apply strip_app_space. }
  unfold normalize_entry, group_entry. rewrite Htext. done.
Qed.

Lemma group_duration_nonneg (group : list AlignedSegment) :
  (group_duration group <? 0) = false.
Proof.
  unfold group_duration.
  enough (Hgen : forall acc, (acc <? 0) = false ->
    (fold_left (fun acc seg => acc + py_max (al_end seg - al_start seg) 0) group acc
     <? 0) = false) by (apply Hgen; reflexivity).
  induction group as [|seg group IH]; intros acc Hacc; [done|].
  simpl. apply IH, add_nonneg; [done | apply py_max_zero_nonneg].
Qed.

Lemma aggregate_by_speaker_eq (segs : list AlignedSegment) :
  _aggregate_by_speaker segs =
    (fun sp => group_entry sp (group_of sp segs))
      <$> first_appearance (al_speaker <$> segs).
Proof.
  unfold _aggregate_by_speaker. rewrite aggregate_bucket.
  unfold dict_values, table. rewrite <- !list_fmap_compose.
  apply list_fmap_ext. intros i sp _. apply normalize_raw_entry.
Qed.

(** C6 (amended). The aggregator returns one entry per distinct speaker
    label, in order of first appearance. The text of an entry is every
    fragment of its group trimmed (the empty ones included), joined by one
    space, then trimmed; its duration is the running sum of max(end - start, 0)
    over the group and is never negative; its word count is the number of
    whitespace-separated tokens of its final text. *)
Theorem aggregate_by_speaker_groups (segs : list AlignedSegment) :
  _aggregate_by_speaker segs =
    (fun sp => group_entry sp (group_of sp segs))
      <$> first_appearance (al_speaker <$> segs) /\
  NoDup (st_speaker <$> _aggregate_by_speaker segs) /\
  forall entry, entry ∈ _aggregate_by_speaker segs ->
    (st_duration entry <? 0) = false /\
    st_word_count entry = Z.of_nat (length (split (st_text entry))).
Proof.
  rewrite aggregate_by_speaker_eq. split; [done|]. split.
  - rewrite <- list_fmap_compose.
    rewrite (list_fmap_ext _ id (first_appearance (al_speaker <$> segs))) by done.
    rewrite list_fmap_id. apply first_appearance_NoDup.
  - intros entry (sp & -> & _)%list_elem_of_fmap. split; [|done].
    apply group_duration_nonneg.
Qed.

(** ** EnergyDiarizer *)

Lemma label_parity (n : nat) : (Z.of_nat n `mod` 2 =? 0)%Z = Nat.even n.
Proof.
  destruct (Nat.even n) eqn:E.
  - apply Nat.even_spec in E as [k ->]. apply Z.eqb_eq.
    rewrite Nat2Z.inj_mul, Z.mul_comm. apply Z.mod_mul. lia.
  - apply Z.eqb_neq. intros Hmod.
    assert (Nat.odd n = true) as [k ->]%Nat.odd_spec
      by (by rewrite <- Nat.negb_even, E).
    rewrite Nat2Z.inj_add, Nat2Z.inj_mul, Z.add_comm, Z.mul_comm in Hmod.
    rewrite Z.mod_add in Hmod by lia. discriminate.
Qed.

Lemma build_span_segment (start last hop : Z) (n : nat) :
  _build_segment start last hop sr (Z.of_nat n) = span_segment hop n (start, (last + 1)%Z).
Proof. unfold _build_segment, span_segment. by rewrite label_parity. Qed.

Lemma scan_loop_simulates (thr : float) (hop : Z) (frames : list float) :
  forall st idx, exists spans,
    vad_run thr (vad_of st) idx frames spans /\
    final_segments hop (scan_loop thr hop st idx frames) =
    segments st ++ imap (fun k => span_segment hop (length (segments st) + k)) spans.
Proof.
  induction frames as [|energy frames IH]; intros st idx.
  - unfold vad_of, final_segments. simpl. destruct (active st) eqn:Ha.
    + eexists. split; [constructor|]. unfold emit. simpl.
      by rewrite build_span_segment, Nat.add_0_r.
    + exists []. split; [constructor|]. by rewrite app_nil_r.
  - simpl scan_loop.
    destruct (IH (scan_body thr hop st idx energy) (idx + 1)%Z) as (spans & Hrun & Hfinal).
    rewrite Hfinal. clear IH Hfinal. revert Hrun.
    unfold scan_body, vad_of.
    destruct (thr <=? energy) eqn:Hge.
    + rewrite (geb_not_ltb _ _ Hge). destruct (active st) eqn:Ha; simpl; rewrite ?Ha.
      * intros Hrun. exists spans. split; [by apply vad_track | done].
      * intros Hrun. exists spans. split; [by apply vad_open | done].
    + destruct (active st) eqn:Ha; simpl; rewrite ?Ha.
      * destruct (energy <? thr) eqn:Hlt; simpl; rewrite ?Ha.
        -- intros Hrun. eexists. split; [by apply vad_close|].
           unfold emit. rewrite build_span_segment, <- app_assoc. simpl.
           rewrite Nat.add_0_r. do 2 f_equal.
           rewrite length_app. simpl. apply imap_ext. intros k span _.
           simpl. f_equal. lia.
        -- intros Hrun. exists spans. split; [by apply vad_hold | done].
      * rewrite andb_false_r, Ha. intros Hrun.
        exists spans. split; [by apply vad_idle | done].
Qed.

(** The machine is deterministic: a frame sequence has one list of spans. *)
Lemma vad_run_deterministic (thr : float) st idx frames spans1 spans2 :
  vad_run thr st idx frames spans1 -> vad_run thr st idx frames spans2 ->
  spans1 = spans2.
Proof.
  intros H1. revert spans2.
  induction H1; intros spans2 H2; inversion H2; subst; try done;
    try congruence; try (f_equal; by auto); try (by auto);
    repeat match goal with
    | Hlt : (?e <? ?t) = true, Hge : (?t <=? ?e) = true |- _ =>
        apply ltb_not_geb in Hlt; congruence
    end.
Qed.

Lemma scan_segments_spans (thr : float) (hop : Z) (frames : list float) :
  exists spans, vad_run thr Inactive 0 frames spans /\
    scan_segments thr hop frames = imap (span_segment hop) spans.
Proof.
  destruct (scan_loop_simulates thr hop frames scan_init 0)
    as (spans & Hrun & Hfinal).
  exists spans. split; [exact Hrun | exact Hfinal].
Qed.

(** C3. The diarizer emits what the two-state scan machine prescribes: the
    machine yields one list of frame spans, a span opening at the first frame
    at or above the threshold and closing as [start, last active frame + 1] on
    the first frame below it or at the end of the stream; the k-th emitted
    segment is the k-th span converted to seconds through the hop length,
    labelled "speaker_1" for even k and "speaker_2" for odd k. *)
Theorem diarize_follows_scan_machine (d : LightweightDiarizer) (sig : Signal) :
  let thr := threshold d sig in
  let hop := hop_length d in
  (exists spans, vad_run thr Inactive 0 (rms_norm sig) spans) /\
  forall spans, vad_run thr Inactive 0 (rms_norm sig) spans ->
    scan_segments thr hop (rms_norm sig) = imap (span_segment hop) spans /\
    (spans <> [] -> diarize d sig = imap (span_segment hop) spans) /\
    forall k span, spans !! k = Some span ->
      scan_segments thr hop (rms_norm sig) !! k =
      Some {| seg_speaker := if Nat.even k then speaker_1 else speaker_2;
              seg_start := int_truediv (span.1 * hop) sr;
              seg_end := int_truediv (span.2 * hop) sr;
              seg_confidence := 0.5 |}.
Proof.
  intros thr hop.
  destruct (scan_segments_spans thr hop (rms_norm sig)) as (spans0 & Hrun0 & Hscan).
  split; [by exists spans0|].
  intros spans Hrun.
  rewrite (vad_run_deterministic _ _ _ _ _ _ Hrun Hrun0).
  split; [done|]. split.
  - intros Hne. unfold diarize. fold thr hop. rewrite Hscan.
    destruct spans0; [done|]. done.
  - intros k span Hk. rewrite Hscan, list_lookup_imap, Hk. done.
Qed.

Lemma scan_loop_silent (thr : float) (hop : Z) (frames : list float) :
  Forall (fun energy => (energy <? thr) = true) frames ->
  forall st idx, active st = false -> scan_loop thr hop st idx frames = st.
Proof.
  induction 1 as [|energy frames Hlt _ IH]; intros st idx Ha; [done|].
  simpl. unfold scan_body.
  rewrite (ltb_not_geb _ _ Hlt). simpl. rewrite Ha, andb_false_r. by apply IH.
Qed.

Lemma span_segment_confidence (hop : Z) (spans : list (Z * Z)) seg :
  seg ∈ imap (span_segment hop) spans -> seg_confidence seg = 0.5.
Proof.
  intros (k & span & -> & _)%elem_of_lookup_imap. done.
Qed.

(** C4. When every normalized frame energy is below the threshold the scan
    emits nothing and the diarizer returns exactly one segment, "speaker_1"
    over [0, clip duration] with confidence 0.2; the diarizer is a total
    function, so no input makes it fail; every segment the scan emits
    carries the confidence 0.5, and a non-empty scan is returned as it is. *)
Theorem diarize_silent_fallback (d : LightweightDiarizer) (sig : Signal) :
  let thr := threshold d sig in
  let hop := hop_length d in
  (Forall (fun energy => (energy <? thr) = true) (rms_norm sig) ->
   scan_segments thr hop (rms_norm sig) = [] /\
   diarize d sig =
     [ {| seg_speaker := speaker_1; seg_start := 0;
          seg_end := int_truediv (n_samples sig) sr;
          seg_confidence := 0.2 |} ]) /\
  (forall seg, seg ∈ scan_segments thr hop (rms_norm sig) ->
     seg_confidence seg = 0.5) /\
  (scan_segments thr hop (rms_norm sig) <> [] ->
   diarize d sig = scan_segments thr hop (rms_norm sig)).
Proof.
  intros thr hop. split; [|split].
  - intros Hsilent.
    assert (scan_segments thr hop (rms_norm sig) = []) as Hscan.
    { unfold scan_segments. by rewrite scan_loop_silent. }
    split; [done|]. unfold diarize. fold thr hop. by rewrite Hscan.
  - intros seg Hseg.
    destruct (scan_segments_spans thr hop (rms_norm sig)) as (spans & _ & Hspans).
    rewrite Hspans in Hseg. by eapply span_segment_confidence.
  - intros Hne. unfold diarize. fold thr hop.
    by destruct (scan_segments thr hop (rms_norm sig)).
Qed.

(** ** RoleInferencer *)

Lemma dict_set_fresh {V} (k : pystr) (v : V) (d : list (pystr * V)) :
  k ∉ dict_keys d -> dict_set k v d = d ++ [(k, v)].
Proof.
  induction d as [|[k0 v0] d IH]; intros Hk; simpl; [done|].
  apply not_elem_of_cons in Hk as [Hne Hk].
  destruct (decide (k = k0)); [done|]. f_equal. by apply IH.
Qed.

Lemma count_cues_le (cues : list pystr) (text : pystr) :
  (count_cues cues text <= length cues)%nat.
Proof. apply List.filter_length_le. Qed.

Lemma score_of_in_all (first : bool) (n_operator n_client : nat) :
  (n_operator <= length OPERATOR_CUES)%nat ->
  (n_client <= length CLIENT_CUES)%nat ->
  score_of first n_operator n_client ∈ all_scores.
Proof.
  intros Ho Hc. unfold all_scores.
  apply list_elem_of_bind. exists first. split; [|destruct first; set_solver].
  apply list_elem_of_bind. exists n_operator. split; [|apply elem_of_seq; lia].
  apply list_elem_of_bind. exists n_client. split; [|apply elem_of_seq; lia].
  by apply list_elem_of_singleton.
Qed.

Lemma all_scores_asym : lt_asym_on all_scores = true.
Proof. vm_compute. reflexivity. Qed.

Lemma all_scores_ge_trans : ge_trans_on all_scores = true.
Proof. vm_compute. reflexivity. Qed.

Lemma all_scores_clamp_bounded : clamp_bounded_on all_scores = true.
Proof. vm_compute. reflexivity. Qed.

Lemma forallb_elem {A} (f : A -> bool) (l : list A) (x : A) :
  forallb f l = true -> x ∈ l -> f x = true.
Proof. rewrite forallb_forall, list_elem_of_In. auto. Qed.

Lemma lt_asym_on_spec (D : list float) :
  lt_asym_on D = true ->
  forall x y, x ∈ D -> y ∈ D -> (x <? y) = true -> (y <? x) = false.
Proof.
  intros HD x y Hx Hy Hlt.
  pose proof (forallb_elem _ _ _ (forallb_elem _ _ _ HD Hx) Hy) as Himp.
  cbv beta in Himp. rewrite Hlt in Himp. by apply negb_true_iff in Himp.
Qed.

Lemma ge_trans_on_spec (D : list float) :
  ge_trans_on D = true ->
  forall x y z, x ∈ D -> y ∈ D -> z ∈ D ->
    (x <? y) = false -> (y <? z) = false -> (x <? z) = false.
Proof.
  intros HD x y z Hx Hy Hz Hxy Hyz.
  pose proof (forallb_elem _ _ _
                (forallb_elem _ _ _ (forallb_elem _ _ _ HD Hx) Hy) Hz) as Himp.
  cbv beta in Himp. rewrite Hxy, Hyz in Himp. by apply negb_true_iff in Himp.
Qed.

Lemma clamp_bounded_on_spec (D : list float) :
  clamp_bounded_on D = true ->
  forall x y, x ∈ D -> y ∈ D ->
    (0.2 <=? clamp_confidence (x - y)) = true /\
    (clamp_confidence (x - y) <=? 0.95) = true.
Proof.
  intros HD x y Hx Hy.
  pose proof (forallb_elem _ _ _ (forallb_elem _ _ _ HD Hx) Hy) as Hxy.
  cbv beta in Hxy. by apply andb_prop in Hxy.
Qed.

Lemma score_lt_asym (x y : float) :
  x ∈ all_scores -> y ∈ all_scores -> (x <? y) = true -> (y <? x) = false.
Proof. exact (lt_asym_on_spec all_scores all_scores_asym x y). Qed.

Lemma score_lt_irrefl (x : float) : x ∈ all_scores -> (x <? x) = false.
Proof.
  intros Hx. destruct (x <? x) eqn:E; [|done].
  pose proof (score_lt_asym x x Hx Hx E). congruence.
Qed.

Lemma score_ge_trans (x y z : float) :
  x ∈ all_scores -> y ∈ all_scores -> z ∈ all_scores ->
  (x <? y) = false -> (y <? z) = false -> (x <? z) = false.
Proof. exact (ge_trans_on_spec all_scores all_scores_ge_trans x y z). Qed.

Lemma score_clamp_bounded (x y : float) :
  x ∈ all_scores -> y ∈ all_scores ->
  (0.2 <=? clamp_confidence (x - y)) = true /\
  (clamp_confidence (x - y) <=? 0.95) = true.
Proof. exact (clamp_bounded_on_spec all_scores all_scores_clamp_bounded x y). Qed.

(** The stable sort permutes its input and leaves it in decreasing order. *)
Lemma insert_desc_perm (x : pystr * float) (l : list (pystr * float)) :
  insert_desc x l ≡ₚ x :: l.
Proof.
  induction l as [|y l IH]; simpl; [done|].
  destruct (x.2 <? y.2); [|done]. rewrite IH. apply Permutation_swap.
Qed.

Lemma sorted_desc_perm (items : list (pystr * float)) : sorted_desc items ≡ₚ items.
Proof.
  induction items as [|x items IH]; simpl; [done|].
  by rewrite insert_desc_perm, IH.
Qed.

Lemma insert_desc_sorted (x : pystr * float) (l : list (pystr * float)) :
  scored x -> Forall scored l ->
  StronglySorted score_ge l -> StronglySorted score_ge (insert_desc x l).
Proof.
  intros Hx Hl Hs. induction Hs as [|y l Hs IH Hy]; simpl.
  - repeat constructor.
  - apply Forall_cons in Hl as [Hgy Hl].
    destruct (x.2 <? y.2) eqn:Hlt.
    + constructor; [by apply IH|].
      rewrite insert_desc_perm. constructor; [|done].
      by apply score_lt_asym.
    + constructor; [by constructor|]. constructor; [done|].
      rewrite Forall_forall in Hy, Hl |- *. intros z Hz.
      apply (score_ge_trans (x.2) (y.2) (z.2));
        [exact Hx | exact Hgy | by apply Hl | exact Hlt | by apply Hy].
Qed.

Lemma sorted_desc_sorted (items : list (pystr * float)) :
  Forall scored items -> StronglySorted score_ge (sorted_desc items).
Proof.
  induction 1 as [|x items Hx Hl IH]; simpl; [constructor|].
  apply insert_desc_sorted; [done | by rewrite sorted_desc_perm | done].
Qed.

(** The substring test and the clamp, against their plain readings. *)
Lemma starts_with_spec (needle hay : pystr) :
  starts_with needle hay = true <-> exists after, hay = needle ++ after.
Proof.
  revert hay. induction needle as [|a needle IH]; intros hay.
  - simpl. split; [intros _; by exists hay | done].
  - destruct hay as [|b hay]; simpl.
    + split; [done | intros (after & Heq); done].
    + rewrite andb_true_iff, N.eqb_eq, IH. split.
      * intros (-> & after & ->). by exists after.
      * intros (after & Heq). injection Heq as -> ->.
        split; [done | by exists after].
Qed.

Lemma str_in_spec (needle hay : pystr) :
  str_in needle hay = true <-> is_substring needle hay.
Proof.
  unfold is_substring. induction hay as [|b hay IH]; simpl.
  - rewrite orb_false_r, starts_with_spec. split.
    + intros (after & Heq). by exists [], after.
    + intros (before & after & Heq).
      destruct before as [|c before]; [by exists after | done].
  - rewrite orb_true_iff, starts_with_spec, IH. split.
    + intros [(after & Heq) | (before & after & Heq)].
      * by exists [], after.
      * exists (b :: before), after. simpl. congruence.
    + intros (before & after & Heq). destruct before as [|c before].
      * left. by exists after.
      * right. simpl in Heq. injection Heq as _ Heq. by exists before, after.
Qed.

Lemma count_cues_matches (cues : list pystr) (text : pystr) :
  matches_count text cues (count_cues cues text).
Proof.
  unfold count_cues. induction cues as [|cue cues IH]; simpl; [constructor|].
  destruct (str_in cue text) eqn:Hin; simpl.
  - apply matches_hit; [by apply str_in_spec | done].
  - apply matches_miss; [|done]. intros Hsub%str_in_spec. congruence.
Qed.

(** The count is determined by the text and the phrases. *)
Lemma matches_count_unique (text : pystr) (cues : list pystr) (n m : nat) :
  matches_count text cues n -> matches_count text cues m -> n = m.
Proof.
  intros Hn. revert m. induction Hn as [|cue cues n Hsub _ IH|cue cues n Hsub _ IH];
    intros m Hm; inversion Hm; subst; try done.
  - f_equal. by apply IH.
  - by apply IH.
Qed.

Lemma clamp_confidence_clamp (diff : float) :
  clamp_confidence diff = clamp diff 0.2 0.95.
Proof.
  unfold clamp_confidence, clamp, py_min, py_max.
  destruct (diff <? 0.2); reflexivity.
Qed.

Section InferRoles.
Context `{CaseMapping}.

Lemma speaker_score_scored (idx : Z) (entry : SpeakerTranscript) :
  speaker_score idx entry ∈ all_scores.
Proof. apply score_of_in_all; apply count_cues_le. Qed.

Lemma score_loop_distinct (entries : list SpeakerTranscript) :
  forall scores idx,
    NoDup (dict_keys scores ++ (st_speaker <$> entries)) ->
    score_loop scores (Z.of_nat idx) entries =
    scores ++ imap (fun k entry =>
                      (st_speaker entry, speaker_score (Z.of_nat (idx + k)) entry))
                   entries.
Proof.
  induction entries as [|entry entries IH]; intros scores idx Hnd.
  - simpl. by rewrite app_nil_r.
  - simpl score_loop. rewrite dict_set_fresh.
    + replace (Z.of_nat idx + 1)%Z with (Z.of_nat (S idx)) by lia.
      rewrite IH.
      * rewrite <- app_assoc. simpl. rewrite Nat.add_0_r. do 2 f_equal.
        apply imap_ext. intros k e _. simpl. do 3 f_equal. lia.
      * unfold dict_keys in *. rewrite fmap_app, <- app_assoc. exact Hnd.
    + intros Hin. apply NoDup_app in Hnd as (_ & Hdisj & _).
      apply (Hdisj _ Hin). simpl. left.
Qed.

Lemma score_loop_items (entries : list SpeakerTranscript) :
  NoDup (st_speaker <$> entries) ->
  score_loop [] 0 entries = score_items entries.
Proof. intros Hnd. by apply (score_loop_distinct entries [] 0%nat). Qed.

Lemma score_items_labels (entries : list SpeakerTranscript) :
  (score_items entries).*1 = st_speaker <$> entries.
  Proof.
  unfold score_items. apply list_eq. intros i.
  rewrite !list_lookup_fmap, list_lookup_imap.
  by destruct (entries !! i).
Qed.

Lemma score_items_elem (item : pystr * float) (entries : list SpeakerTranscript) :
  item ∈ score_items entries <->
  exists k entry, entries !! k = Some entry /\
                  item = (st_speaker entry, speaker_score (Z.of_nat k) entry).
Proof.
  unfold score_items. rewrite elem_of_lookup_imap.
  split; intros (k & entry & H1 & H2); exists k, entry; done.
Qed.

Lemma score_items_scored (entries : list SpeakerTranscript) :
  Forall scored (score_items entries).
Proof.
  apply Forall_forall. intros item (k & entry & _ & ->)%score_items_elem.
  apply speaker_score_scored.
Qed.

(** Entries that all carry one label leave one score. *)
Lemma score_loop_one_label (l : pystr) (entries : list SpeakerTranscript)
    (idx : Z) (x : float) :
  (forall e, e ∈ entries -> st_speaker e = l) ->
  exists y, score_loop [(l, x)] idx entries = [(l, y)].
Proof.
  revert idx x. induction entries as [|e entries IH]; intros idx x Hall.
  - by exists x.
  - cbn [score_loop dict_set]. rewrite (Hall e) by left.
    rewrite decide_True by done.
    apply IH. intros e' He'. apply Hall. by right.
Qed.

(** C1. With exactly one speaker (every entry carries the same label) the
    inferencer returns that speaker as operator, no client, confidence 0.4
    and the strategy "single_speaker". The score of an entry is 0, plus 0.3
    if it is first, plus 0.2 for each operator cue that occurs as a
    substring of its lower-cased text, minus 0.2 for each client cue that
    does. On two or more entries with pairwise distinct speaker labels (what
    the aggregator hands over) the operator is an entry no entry outscores,
    the client a different entry that no entry but the operator outscores,
    the confidence is clamp(operator score - client score, 0.2, 0.95), the
    strategy is "cue_and_order" and [uncertain] is true exactly when the
    confidence is below 0.5. *)
Theorem infer_roles_by_score :
  (forall l entry entries,
     (forall e, e ∈ entry :: entries -> st_speaker e = l) ->
     _infer_roles (entry :: entries) =
     {| rm_operator := Some l; rm_client := None;
        rm_confidence := 0.4; rm_strategy := py "single_speaker";
        rm_uncertain := None; rm_notes := Some single_speaker_notes |}) /\
  (forall idx entry, exists n_operator n_client,
     matches_count (lower (st_text entry)) OPERATOR_CUES n_operator /\
     matches_count (lower (st_text entry)) CLIENT_CUES n_client /\
     speaker_score idx entry =
     (if (idx =? 0)%Z then 0 + 0.3 else 0)
     + float_of_int (Z.of_nat n_operator) * 0.2
     - float_of_int (Z.of_nat n_client) * 0.2) /\
  forall entries,
    NoDup (st_speaker <$> entries) ->
    (2 <= length entries)%nat ->
    exists i j operator client,
      entries !! i = Some operator /\ entries !! j = Some client /\ i <> j /\
      (forall k entry, entries !! k = Some entry ->
         (speaker_score (Z.of_nat i) operator <? speaker_score (Z.of_nat k) entry)
         = false) /\
      (forall k entry, entries !! k = Some entry -> k <> i ->
         (speaker_score (Z.of_nat j) client <? speaker_score (Z.of_nat k) entry)
         = false) /\
      let confidence :=
        clamp (speaker_score (Z.of_nat i) operator
               - speaker_score (Z.of_nat j) client) 0.2 0.95 in
      (0.2 <=? confidence) = true /\ (confidence <=? 0.95) = true /\
      _infer_roles entries =
      {| rm_operator := Some (st_speaker operator);
         rm_client := Some (st_speaker client);
         rm_confidence := confidence;
         rm_strategy := py "cue_and_order";
         rm_uncertain := Some (confidence <? 0.5);
         rm_notes := None |}.
Proof.
  split.
  { intros l entry entries Hall. unfold _infer_roles.
    cbn [score_loop dict_set]. rewrite (Hall entry) by left.
    destruct (score_loop_one_label l entries (0 + 1)%Z (speaker_score 0 entry))
      as [y Hy]; [intros e He; apply Hall; by right|].
    rewrite Hy. reflexivity. }
  split.
  { intros idx entry.
    exists (count_cues OPERATOR_CUES (lower (st_text entry))),
           (count_cues CLIENT_CUES (lower (st_text entry))).
    split; [apply count_cues_matches|]. split; [apply count_cues_matches|].
    unfold speaker_score, score_of. destruct (idx =? 0)%Z; reflexivity. }
  intros entries Hnd Hlen.
  pose proof (score_loop_items entries Hnd) as Hscores.
  pose proof (sorted_desc_perm (score_items entries)) as Hperm.
  pose proof (sorted_desc_sorted _ (score_items_scored entries)) as Hsorted.
  assert (length (score_items entries) = length entries) as Hlen_items
    by apply length_imap.
  pose proof (Permutation_length Hperm) as Hlen_sorted.
  assert (NoDup (sorted_desc (score_items entries)).*1) as Hnd_sorted
    by (by rewrite Hperm, score_items_labels).
  destruct (sorted_desc (score_items entries)) as [|a [|b rest]] eqn:Es;
    [simpl in Hlen_sorted; lia | simpl in Hlen_sorted; lia |].
  assert (a ∈ score_items entries) as (i & operator & Hi & ->)%score_items_elem
    by (rewrite <- Hperm; left).
  assert (b ∈ score_items entries) as (j & client & Hj & ->)%score_items_elem
    by (rewrite <- Hperm; right; left).
  apply StronglySorted_inv in Hsorted as [Hsorted Ha].
  apply StronglySorted_inv in Hsorted as [_ Hb].
  rewrite Forall_forall in Ha, Hb.
  apply NoDup_cons in Hnd_sorted as [Hab _]. simpl in Hab.
  exists i, j, operator, client. split; [done|]. split; [done|].
  split; [|split; [|split]].
  - intros ->. rewrite Hi in Hj. injection Hj as ->. apply Hab. left.
  - intros k entry Hk.
    assert ((st_speaker entry, speaker_score (Z.of_nat k) entry)
            ∈ score_items entries) as Hin by (apply score_items_elem; eauto).
    rewrite <- Hperm in Hin. apply elem_of_cons in Hin as [Heq|Hin].
    + injection Heq as _ ->. apply score_lt_irrefl, speaker_score_scored.
    + apply (Ha _ Hin).
  - intros k entry Hk Hki.
    assert ((st_speaker entry, speaker_score (Z.of_nat k) entry)
            ∈ score_items entries) as Hin by (apply score_items_elem; eauto).
    rewrite <- Hperm in Hin. apply elem_of_cons in Hin as [Heq|Hin].
    + exfalso. apply Hki. injection Heq as Hlabel _.
      eapply (NoDup_lookup _ _ _ _ Hnd);
        rewrite list_lookup_fmap; [by rewrite Hk | by rewrite Hi, Hlabel].
    + apply elem_of_cons in Hin as [Heq|Hin].
      * injection Heq as _ ->. apply score_lt_irrefl, speaker_score_scored.
      * apply (Hb _ Hin).
  - cbv zeta. rewrite <- clamp_confidence_clamp.
    destruct (score_clamp_bounded (speaker_score (Z.of_nat i) operator)
                (speaker_score (Z.of_nat j) client)) as [Hlo Hhi];
      [apply speaker_score_scored..|].
    split; [done|]. split; [done|].
    unfold _infer_roles. destruct entries as [|e0 entries]; [simpl in Hlen; lia|].
    rewrite Hscores, Hlen_items, Es.
    destruct entries as [|e1 entries]; [simpl in Hlen; lia|]. done.
Qed.
End InferRoles.

(** ** BalanceComputer *)

Lemma balance_fold (entries : list SpeakerTranscript) (acc : Z * Z) :
  fold_left balance_step entries acc =
  ((acc.1 + role_words (py "operator") entries)%Z,
   (acc.2 + role_words (py "client") entries)%Z).
Proof.
  revert acc. induction entries as [|entry entries IH]; intros [o c]; simpl.
  - f_equal; lia.
  - rewrite IH. unfold balance_step. simpl.
    destruct (decide (role_or_speaker entry = py "operator")) as [Ho|Ho].
    + rewrite Ho.
      destruct (decide (py "operator" = py "client")) as [Heq|_];
        [vm_compute in Heq; discriminate|].
      simpl. f_equal; lia.
    + destruct (decide (role_or_speaker entry = py "client")); simpl; f_equal; lia.
Qed.

Lemma exact_percentages_sum (o c : Z) :
  (o + c)%Z <> 0%Z ->
  (exact_percentage o (o + c) + exact_percentage c (o + c) == 100)%Q.
Proof.
  intros Hne. unfold exact_percentage. rewrite inject_Z_plus.
  assert (~ (inject_Z o + inject_Z c == 0)%Q) as Hq.
  { unfold Qeq. simpl. lia. }
  field. exact Hq.
Qed.

(** C7 (amended). With o and c the word counts of the entries whose role
    (or, without a role, speaker label) is "operator" and "client": when
    o + c = 0 the balance is zeroed with quality "SIN_DATOS"; otherwise
    operator_percentage = o / (o + c) * 100 and
    client_percentage = c / (o + c) * 100, each rounded as a float (the two
    exact quotients sum to 100), and the quality is "BUENO" exactly when
    35 <= operator_percentage <= 55 and "DESBALANCEADO" otherwise. *)
Theorem speaking_balance_by_words (entries : list SpeakerTranscript) :
  let o := role_words (py "operator") entries in
  let c := role_words (py "client") entries in
  let b := _compute_speaking_balance entries in
  ((o + c)%Z = 0%Z -> b = no_data_balance) /\
  ((o + c)%Z <> 0%Z ->
     operator_percentage b = int_truediv o (o + c) * 100 /\
     client_percentage b = int_truediv c (o + c) * 100 /\
     operator_words b = Some o /\ client_words b = Some c /\
     balance_quality b =
       (if (35 <=? operator_percentage b) && (operator_percentage b <=? 55)
        then py "BUENO" else py "DESBALANCEADO") /\
     (exact_percentage o (o + c) + exact_percentage c (o + c) == 100)%Q).
Proof.
  intros o c b. unfold b, _compute_speaking_balance.
  rewrite balance_fold. cbn [fst snd]. rewrite !Z.add_0_l. fold o c. split.
  - intros Hz. by rewrite Hz.
  - intros Hnz. apply Z.eqb_neq in Hnz as Hb. rewrite Hb. cbn.
    repeat split. by apply exact_percentages_sum.
Qed.

(** ** RoleAwareSentimentAggregator *)

Lemma extend_nil (w : World) : extend w [] = w.
Proof. destruct w. unfold extend. simpl. by rewrite app_nil_r. Qed.

Lemma extend_extend (w : World) (evs1 evs2 : list event) :
  extend (extend w evs1) evs2 = extend w (evs1 ++ evs2).
Proof. unfold extend. simpl. by rewrite app_assoc. Qed.

Lemma log_run (ev : event) (w : World) : log ev w = (Returned tt, extend w [ev]).
Proof. done. Qed.

Lemma analyze_if_text_run (env : Env) (analyzer : pystr -> Verdict) (text : pystr)
    (w : World) :
  analyze_if_text analyzer text w =
  (Returned (role_verdict analyzer text), extend w (role_calls text)).
Proof.
  unfold analyze_if_text, role_verdict, role_calls.
  destruct (truthy text); [done|]. by rewrite extend_nil.
Qed.

Lemma sentiment_for_roles_run (env : Env) (entries : list SpeakerTranscript)
    (combined_text : pystr) (w : World) :
  _sentiment_for_roles env entries combined_text w =
  match sentiment_analyzer env with
  | None => (Returned NoSentiment, w)
  | Some analyzer =>
      let operator_text := role_text (py "operator") entries in
      let client_text := role_text (py "client") entries in
      (Returned (RoleSentiment (role_verdict analyzer operator_text)
                               (role_verdict analyzer client_text)
                               (analyzer combined_text)),
       extend w (role_calls operator_text ++ role_calls client_text
                 ++ [CallAnalyzeText combined_text]))
  end.
Proof.
  unfold _sentiment_for_roles. destruct (sentiment_analyzer env) as [analyzer|]; [|done].
  unfold mbind, M_bind. rewrite !analyze_if_text_run by exact env.
  unfold call_analyze_text, mbind, M_bind. rewrite log_run. simpl.
  by rewrite !extend_extend.
Qed.

(** C9 (amended). Without a configured analyzer the aggregator makes no call
    and returns the empty dict. With one it calls the collaborator at most
    once per candidate text, in the order operator, client, overall: a role
    whose concatenated text is empty gets no call and the value null, and
    the overall call is made on every combined transcript, the empty one
    included; so one to three calls are made. *)
Theorem sentiment_for_roles_calls (env : Env) (entries : list SpeakerTranscript)
    (combined_text : pystr) (w : World) :
  let operator_text := role_text (py "operator") entries in
  let client_text := role_text (py "client") entries in
  match sentiment_analyzer env with
  | None => _sentiment_for_roles env entries combined_text w = (Returned NoSentiment, w)
  | Some analyzer =>
      exists calls,
        _sentiment_for_roles env entries combined_text w =
          (Returned
             (RoleSentiment
                (if truthy operator_text then Some (analyzer operator_text) else None)
                (if truthy client_text then Some (analyzer client_text) else None)
                (analyzer combined_text)),
           {| files := files w; trace := trace w ++ calls |}) /\
        calls =
          (if truthy operator_text then [CallAnalyzeText operator_text] else [])
          ++ (if truthy client_text then [CallAnalyzeText client_text] else [])
          ++ [CallAnalyzeText combined_text] /\
        (1 <= length calls <= 3)%nat
  end.
Proof.
  intros operator_text client_text. rewrite sentiment_for_roles_run.
  destruct (sentiment_analyzer env) as [analyzer|]; [|done].
  eexists. split; [reflexivity|]. split; [reflexivity|].
  unfold role_calls. fold operator_text client_text.
  destruct (truthy operator_text), (truthy client_text); simpl; lia.
Qed.

(** ** The facade *)

Section FacadeFacts.
Context `{CaseMapping} (env : Env).

Lemma sentiment_for_roles_extend (entries : list SpeakerTranscript) (w : World) :
  _sentiment_for_roles env entries (_build_labeled_transcript entries) w =
  (Returned (sentiment_result env entries), extend w (sentiment_calls env entries)).
Proof.
  rewrite sentiment_for_roles_run. unfold sentiment_result, sentiment_calls.
  destruct (sentiment_analyzer env); [done|]. by rewrite extend_nil.
Qed.

Lemma sentiment_calls_not_mono (entries : list SpeakerTranscript) :
  Forall (fun ev => mono_only_call ev = false) (sentiment_calls env entries).
Proof.
  unfold sentiment_calls, role_calls.
  destruct (sentiment_analyzer env); [|constructor].
  repeat (apply Forall_app; split);
    repeat match goal with |- context [truthy ?t] => destruct (truthy t) end;
    repeat constructor.
Qed.

Lemma bind_run {A B} (m : M A) (k : A -> M B) (w : World) :
  (m ≫= k) w =
  match m w with
  | (Returned a, w') => k a w'
  | (Raised e, w') => (Raised e, w')
  end.
Proof. done. Qed.

Lemma split_run (audio_path : path) (audio : Audio) (w : World) :
  decode env audio_path = Some audio ->
  channels (audio_profile_of audio) = 2%Z ->
  split_stereo_channels env audio_path w =
  (Returned (tmp_left env, tmp_right env),
   {| files := {[tmp_right env]} ∪ ({[tmp_left env]} ∪ files w);
      trace := trace w ++ [CallSplit audio_path] |}).
Proof.
  intros Hdecode Hchannels. unfold split_stereo_channels.
  rewrite bind_run, log_run, Hdecode, Hchannels. done.
Qed.

Lemma call_transcribe_run (audio_path : path) (with_segments : bool) (w : World) :
  call_transcribe env audio_path with_segments w =
  (Returned (transcribe_file env audio_path with_segments),
   extend w [CallTranscribe audio_path with_segments]).
Proof. done. Qed.

(** The run of the stereo path on a file that decodes as stereo. *)
Lemma process_stereo_run (audio_path : path) (profile : AudioProfile)
    (audio : Audio) (w : World) :
  decode env audio_path = Some audio ->
  channels (audio_profile_of audio) = 2%Z ->
  _process_stereo env audio_path profile w =
  match transcribe_file env (tmp_left env) false,
        transcribe_file env (tmp_right env) false with
  | Some operator_tx, Some client_tx =>
      let entries := stereo_entries operator_tx client_tx profile in
      let combined_text := _build_labeled_transcript entries in
      let sentiment := sentiment_result env entries in
      (Returned
         {| pr_transcript :=
              {| tr_text := combined_text;
                 tr_language :=
                   (let l := get_str (tx_language operator_tx) (py "es") in
                    if truthy l then l
                    else get_str (tx_language client_tx) (py "es"));
                 tr_duration := duration_seconds profile;
                 tr_model_used := model_name env;
                 tr_device_used := device env;
                 tr_char_count := Z.of_nat (length combined_text);
                 tr_segments := [];
                 tr_transcript_by_speaker := entries;
                 tr_role_mapping := stereo_role_mapping;
                 tr_speaking_balance := _compute_speaking_balance entries;
                 tr_sentiment_by_role := sentiment |};
            pr_audio_profile := profile;
            pr_speaker_summary :=
              _build_speaker_summary entries stereo_role_mapping sentiment profile |},
       stereo_world env audio_path w (sentiment_calls env entries))
  | _, _ => (Raised AttributeError, stereo_world env audio_path w [])
  end.
Proof.
  intros Hdecode Hchannels.
  unfold _process_stereo.
  rewrite bind_run, (split_run _ _ _ Hdecode Hchannels). cbv beta iota.
  rewrite bind_run, call_transcribe_run. cbv beta iota.
  rewrite bind_run, call_transcribe_run. cbv beta iota.
  rewrite !extend_extend. unfold extend. cbn [files trace app].
  rewrite <- app_assoc. cbn [app].
  destruct (transcribe_file env (tmp_left env) false) as [operator_tx|];
    [|unfold stereo_world; by rewrite app_nil_r].
  destruct (transcribe_file env (tmp_right env) false) as [client_tx|];
    [|unfold stereo_world; by rewrite app_nil_r].
  rewrite bind_run. cbn [deref]. unfold mret at 1, M_ret at 1. cbv beta iota.
  rewrite bind_run. cbn [deref]. unfold mret at 1, M_ret at 1. cbv beta iota.
  rewrite bind_run, sentiment_for_roles_extend. cbv beta iota.
  unfold stereo_world, extend. cbn [files trace].
  rewrite <- !app_assoc. reflexivity.
Qed.

Lemma process_audio_stereo (audio_path : path) (audio : Audio) (w : World) :
  decode env audio_path = Some audio ->
  channels (audio_profile_of audio) = 2%Z ->
  process_audio env audio_path w =
  _process_stereo env audio_path (audio_profile_of audio)
                  (extend w [CallDetectProfile audio_path]).
Proof.
  intros Hdecode Hchannels. unfold process_audio, detect_audio_profile.
  unfold mbind, M_bind, mret, M_ret. rewrite log_run, Hdecode.
  unfold is_stereo. by rewrite Hchannels.
Qed.

(** C2. On a stereo input the facade makes none of the mono-path calls
    (diarizer, aligner, aggregator, role inference) whatever the outcome;
    when it returns, the role mapping is operator = "channel_left",
    client = "channel_right", confidence 0.95, strategy
    "stereo_channel_mapping", and the transcript has no segments. It does
    return whenever both channel transcriptions succeed. *)
Theorem process_stereo_fixed_mapping (audio_path : path) (audio : Audio)
    (w : World) :
  decode env audio_path = Some audio ->
  channels (audio_profile_of audio) = 2%Z ->
  (forall out w', process_audio env audio_path w = (out, w') ->
     (exists calls, trace w' = trace w ++ calls /\
                    Forall (fun ev => mono_only_call ev = false) calls) /\
     forall r, out = Returned r ->
       let mapping := tr_role_mapping (pr_transcript r) in
       rm_operator mapping = Some (py "channel_left") /\
       rm_client mapping = Some (py "channel_right") /\
       rm_confidence mapping = 0.95 /\
       rm_strategy mapping = py "stereo_channel_mapping" /\
       ss_role_mapping (pr_speaker_summary r) = mapping /\
       tr_segments (pr_transcript r) = []) /\
  (is_Some (transcribe_file env (tmp_left env) false) ->
   is_Some (transcribe_file env (tmp_right env) false) ->
   exists r w', process_audio env audio_path w = (Returned r, w')).
Proof.
  intros Hdecode Hchannels.
  rewrite (process_audio_stereo _ _ _ Hdecode Hchannels).
  rewrite (process_stereo_run _ _ _ _ Hdecode Hchannels).
  split.
  - intros out w' Hrun.
    destruct (transcribe_file env (tmp_left env) false) as [operator_tx|],
             (transcribe_file env (tmp_right env) false) as [client_tx|];
      injection Hrun as <- <-; (split; [|try done]);
      try (eexists; split; [unfold stereo_world, extend; cbn [trace];
                            rewrite <- app_assoc; reflexivity|];
           repeat first [apply Forall_cons; split; [reflexivity|]
                        | apply Forall_nil_2
                        | apply sentiment_calls_not_mono]).
    intros r [= <-]. done.
  - intros [operator_tx ->] [client_tx ->]. eauto.
Qed.

(** C10 (amended). On a stereo input the two temporary channel files the
    splitter creates are not deleted on any exit path: whether the facade
    returns or raises, both are on disk afterwards, next to every file that
    was there before. *)
Theorem process_stereo_leaves_temp_files (audio_path : path) (audio : Audio)
    (w : World) :
  decode env audio_path = Some audio ->
  channels (audio_profile_of audio) = 2%Z ->
  forall out w', process_audio env audio_path w = (out, w') ->
    files w' = {[tmp_right env]} ∪ ({[tmp_left env]} ∪ files w) /\
    tmp_left env ∈ files w' /\ tmp_right env ∈ files w'.
Proof.
  intros Hdecode Hchannels out w'.
  rewrite (process_audio_stereo _ _ _ Hdecode Hchannels).
  rewrite (process_stereo_run _ _ _ _ Hdecode Hchannels).
  intros Hrun.
  assert (files w' = {[tmp_right env]} ∪ ({[tmp_left env]} ∪ files w)) as ->.
  { destruct (transcribe_file env (tmp_left env) false),
             (transcribe_file env (tmp_right env) false);
      by injection Hrun as _ <-. }
  split; [done|]. set_solver.
Qed.

(** The run of the mono path. *)
Lemma process_mono_run (audio_path : path) (profile : AudioProfile)
    (audio : Audio) (w : World) :
  decode env audio_path = Some audio ->
  _process_mono env audio_path profile w =
  match transcribe_file env audio_path true with
  | None =>
      (Raised AttributeError,
       extend w [CallDiarize audio_path; CallTranscribe audio_path true])
  | Some whisper_result =>
      let diar_segments := diarize default_diarizer (audio_signal audio) in
      let aligned_segments :=
        _align_segments (default [] (tx_segments whisper_result)) diar_segments in
      let entries := _aggregate_by_speaker aligned_segments in
      let role_mapping := _infer_roles entries in
      let combined_text := _build_labeled_transcript entries in
      let sentiment := sentiment_result env entries in
      (Returned
         {| pr_transcript :=
              {| tr_text := combined_text;
                 tr_language := get_str (tx_language whisper_result) (py "es");
                 tr_duration :=
                   get_float (tx_duration whisper_result) (duration_seconds profile);
                 tr_model_used := model_name env;
                 tr_device_used := device env;
                 tr_char_count := Z.of_nat (length combined_text);
                 tr_segments := aligned_segments;
                 tr_transcript_by_speaker := entries;
                 tr_role_mapping := role_mapping;
                 tr_speaking_balance := _compute_speaking_balance entries;
                 tr_sentiment_by_role := sentiment |};
            pr_audio_profile := profile;
            pr_speaker_summary :=
              _build_speaker_summary entries role_mapping sentiment profile |},
       extend w ([CallDiarize audio_path; CallTranscribe audio_path true;
                  CallAlign; CallAggregate; CallInferRoles]
                 ++ sentiment_calls env entries))
  end.
Proof.
  intros Hdecode. unfold _process_mono, call_diarize.
  rewrite !bind_run, log_run, Hdecode. cbv beta iota.
  unfold mret at 1, M_ret at 1. cbv beta iota.
  rewrite bind_run, call_transcribe_run. cbv beta iota.
  rewrite extend_extend. cbn [app].
  destruct (transcribe_file env audio_path true) as [whisper_result|];
    [|reflexivity].
  rewrite bind_run. cbn [deref]. unfold mret at 1, M_ret at 1. cbv beta iota.
  do 3 (rewrite !bind_run, log_run; cbv beta iota;
        unfold mret at 1, M_ret at 1; cbv beta iota).
  rewrite bind_run, sentiment_for_roles_extend. cbv beta iota.
  rewrite !extend_extend. cbn [app]. reflexivity.
Qed.

Lemma process_audio_mono (audio_path : path) (audio : Audio) (w : World) :
  decode env audio_path = Some audio ->
  channels (audio_profile_of audio) <> 2%Z ->
  process_audio env audio_path w =
  _process_mono env audio_path (audio_profile_of audio)
                (extend w [CallDetectProfile audio_path]).
Proof.
  intros Hdecode Hchannels. unfold process_audio, detect_audio_profile.
  rewrite !bind_run, log_run, Hdecode. cbv beta iota.
  unfold mret at 1, M_ret at 1. cbv beta iota.
  unfold is_stereo. by apply Z.eqb_neq in Hchannels as ->.
Qed.

Lemma diarize_labels (d : LightweightDiarizer) (sig : Signal) seg :
  seg ∈ diarize d sig -> seg_speaker seg = speaker_1 \/ seg_speaker seg = speaker_2.
Proof.
  unfold diarize.
  destruct (scan_segments_spans (threshold d sig) (hop_length d) (rms_norm sig))
    as (spans & _ & ->).
  destruct spans as [|span spans].
  - intros ->%list_elem_of_singleton. by left.
  - intros (k & sp & -> & _)%elem_of_lookup_imap. simpl.
    destruct (Nat.even k); auto.
Qed.

Lemma align_labels (whisper : list WhisperSegment) (diar : list SpeakerSegment) a :
  a ∈ _align_segments whisper diar ->
  al_speaker a = speaker_1 \/ exists ds, ds ∈ diar /\ al_speaker a = seg_speaker ds.
Proof.
  rewrite align_is_map. intros (ws & -> & _)%list_elem_of_fmap.
  unfold align_one. simpl.
  destruct (List.find _ diar) as [ds|] eqn:Hfind; [|by left].
  right. exists ds. split; [|done].
  apply find_some in Hfind as [Hin _]. by apply list_elem_of_In.
Qed.

Lemma aggregate_entries (segs : list AlignedSegment) entry :
  entry ∈ _aggregate_by_speaker segs ->
  st_role entry = None /\ st_speaker entry ∈ (al_speaker <$> segs).
Proof.
  rewrite aggregate_by_speaker_eq.
  intros (sp & -> & Hsp)%list_elem_of_fmap. split; [done|].
  by apply first_appearance_elem.
Qed.

Lemma role_words_none (role : pystr) (entries : list SpeakerTranscript) :
  (forall entry, entry ∈ entries -> role_or_speaker entry <> role) ->
  role_words role entries = 0%Z.
Proof.
  induction entries as [|entry entries IH]; intros Hall; simpl; [done|].
  destruct (decide (role_or_speaker entry = role)) as [Heq|_].
  - exfalso. by apply (Hall entry); [left|].
  - rewrite IH; [done|]. intros e He. apply Hall. by right.
Qed.

Lemma balance_no_roles (entries : list SpeakerTranscript) :
  (forall entry, entry ∈ entries ->
     role_or_speaker entry <> py "operator" /\ role_or_speaker entry <> py "client") ->
  _compute_speaking_balance entries = no_data_balance.
Proof.
  intros Hall. unfold _compute_speaking_balance.
  rewrite balance_fold, !role_words_none; [done|..];
    intros entry Hentry; by apply Hall.
Qed.

Lemma role_text_unassigned (role : pystr) (entries : list SpeakerTranscript) :
  (forall entry, entry ∈ entries -> st_role entry = None) ->
  role_text role entries = [].
Proof.
  intros Hall. unfold role_text.
  replace (List.filter _ entries) with (@nil SpeakerTranscript); [done|].
  induction entries as [|entry entries IH]; [done|]. simpl.
  rewrite (Hall entry) by left. rewrite bool_decide_eq_false_2 by done.
  apply IH. intros e He. apply Hall. by right.
Qed.

(** C8. On a mono input no entry of the per-speaker transcript carries a
    role; so the speaking balance is the zeroed "SIN_DATOS" one, in the
    transcript and in the summary alike, and the sentiment by role holds
    no value for the operator and none for the client. The mono path
    returns whenever the transcription does. *)
Theorem process_mono_roles_unassigned (audio_path : path) (audio : Audio)
    (w : World) :
  decode env audio_path = Some audio ->
  channels (audio_profile_of audio) <> 2%Z ->
  (forall r w', process_audio env audio_path w = (Returned r, w') ->
     Forall (fun entry => st_role entry = None)
            (tr_transcript_by_speaker (pr_transcript r)) /\
     tr_speaking_balance (pr_transcript r) = no_data_balance /\
     ss_speaking_balance (pr_speaker_summary r) = no_data_balance /\
     sentiment_get (tr_sentiment_by_role (pr_transcript r)) KOperator = None /\
     sentiment_get (tr_sentiment_by_role (pr_transcript r)) KClient = None /\
     sentiment_get (ss_sentiment_by_role (pr_speaker_summary r)) KOperator = None /\
     sentiment_get (ss_sentiment_by_role (pr_speaker_summary r)) KClient = None) /\
  (is_Some (transcribe_file env audio_path true) ->
   exists r w', process_audio env audio_path w = (Returned r, w')).
Proof.
  intros Hdecode Hchannels.
  rewrite (process_audio_mono _ _ _ Hdecode Hchannels).
  rewrite (process_mono_run _ _ _ _ Hdecode).
  destruct (transcribe_file env audio_path true) as [whisper_result|];
    [|split; [done | by intros [? ?]]].
  split; [|eauto].
  intros r w' [= <- _]. cbn [pr_transcript pr_speaker_summary
    tr_transcript_by_speaker tr_speaking_balance tr_sentiment_by_role
    _build_speaker_summary ss_speaking_balance ss_sentiment_by_role].
  set (diar := diarize default_diarizer (audio_signal audio)).
  set (aligned := _align_segments _ diar).
  set (entries := _aggregate_by_speaker aligned).
  assert (forall entry, entry ∈ entries -> st_role entry = None) as Hroles
    by (intros entry Hentry; by apply (aggregate_entries aligned)).
  assert (forall entry, entry ∈ entries ->
            role_or_speaker entry <> py "operator" /\
            role_or_speaker entry <> py "client") as Hlabels.
  { intros entry Hentry. unfold role_or_speaker. rewrite (Hroles _ Hentry).
    apply aggregate_entries in Hentry as [_ (a & -> & Ha)%list_elem_of_fmap].
    assert (al_speaker a = speaker_1 \/ al_speaker a = speaker_2) as [-> | ->].
    { apply align_labels in Ha as [Ha|(ds & Hds & ->)]; [by left|].
      by apply diarize_labels in Hds. }
    all: split; intros Heq; vm_compute in Heq; discriminate. }
  assert (sentiment_get (sentiment_result env entries) KOperator = None /\
          sentiment_get (sentiment_result env entries) KClient = None) as [Hop Hcl].
  { unfold sentiment_result. destruct (sentiment_analyzer env); [|done].
    unfold role_verdict. rewrite !role_text_unassigned by done. done. }
  rewrite balance_no_roles by done.
  split; [by apply Forall_forall|]. done.
Qed.
End FacadeFacts.

(** * Further properties *)

(** ** EnergyDiarizer: shape of the emitted spans *)

Lemma spans_ordered_weaken (lo lo' hi : Z) (spans : list (Z * Z)) :
  (lo' <= lo)%Z -> spans_ordered lo hi spans -> spans_ordered lo' hi spans.
Proof.
  destruct spans as [|[s e] rest]; [done|]. simpl. intros Hle [Hb Hrest].
  split; [lia | done].
Qed.

Lemma spans_ordered_count (lo hi : Z) (spans : list (Z * Z)) :
  (lo <= hi)%Z -> spans_ordered lo hi spans ->
  (2 * Z.of_nat (length spans) <= hi - lo + 1)%Z.
Proof.
  revert lo. induction spans as [|[s e] rest IH]; intros lo Hlo; simpl; [lia|].
  intros [Hb Hrest].
  destruct rest as [|[s' e'] rest'].
  - simpl. lia.
  - assert (e + 1 <= hi)%Z by (simpl in Hrest; lia).
    specialize (IH (e + 1)%Z ltac:(lia) Hrest). simpl length in *. lia.
Qed.

Lemma voiced_app (thr : float) (seen more : list float) (i : Z) :
  voiced thr seen i -> voiced thr (seen ++ more) i.
Proof.
  intros [Hi (energy & Hlook & Hge)]. split; [done|].
  exists energy. split; [|done]. by apply lookup_app_l_Some.
Qed.

Lemma voiced_snoc (thr : float) (seen : list float) (energy : float) :
  (thr <=? energy) = true ->
  voiced thr (seen ++ [energy]) (Z.of_nat (length seen)).
Proof.
  intros Hge. split; [lia|]. exists energy. split; [|done].
  rewrite Nat2Z.id. by apply list_lookup_middle.
Qed.

(** What a run of the machine guarantees, seen from the whole frame list:
    [seen] are the frames before [idx], [frames] the ones still to scan. *)
Lemma vad_run_spans (thr : float) st idx frames spans :
  vad_run thr st idx frames spans ->
  forall seen, idx = Z.of_nat (length seen) -> vad_state_ok thr seen st ->
    let all := seen ++ frames in
    let hi := Z.of_nat (length all) in
    (* order *)
    match st with
    | Inactive => spans_ordered idx hi spans
    | Active s l =>
        exists e rest, spans = (s, e) :: rest /\ (l + 1 <= e <= hi)%Z /\
                       spans_ordered (e + 1)%Z hi rest
    end /\
    (* every span starts and ends on a voiced frame *)
    Forall (fun span => voiced thr all span.1 /\ voiced thr all (span.2 - 1)%Z) spans /\
    (* every voiced frame still to scan is inside a span *)
    (forall i, (idx <= i)%Z -> voiced thr all i ->
       exists span, span ∈ spans /\ (span.1 <= i < span.2)%Z).
Proof.
  induction 1 as
    [ idx | s l idx | idx energy frames spans Hge Hrun IH
    | idx energy frames spans Hlow Hrun IH
    | s l idx energy frames spans Hge Hrun IH
    | s l idx energy frames spans Hlt Hrun IH
    | s l idx energy frames spans Hlow Hnlt Hrun IH ];
    intros seen Hidx Hok; cbn zeta.
  - (* end, inactive *)
    rewrite app_nil_r. repeat split; [constructor|].
    intros i Hi [_ (energy & Hlook & _)].
    apply lookup_lt_Some in Hlook. lia.
  - (* end, active *)
    rewrite app_nil_r. destruct Hok as (Hsl & Hs & Hl). split; [|split].
    + exists (l + 1)%Z, []. repeat split; simpl; lia.
    + constructor; [|constructor]. simpl. split; [done|].
      by replace (l + 1 - 1)%Z with l by lia.
    + intros i Hi [_ (energy & Hlook & _)].
      apply lookup_lt_Some in Hlook. lia.
  - (* open *)
    specialize (IH (seen ++ [energy])).
    rewrite length_app, <- app_assoc in IH. simpl in IH.
    destruct IH as ((e & rest & -> & He & Hrest) & Hends & Hcover).
    { lia. }
    { subst idx. split; [rewrite length_app; simpl; lia|].
      split; by apply voiced_snoc. }
    split; [|split].
    + simpl. split; [lia | done].
    + done.
    + intros i Hi Hv. destruct (decide (i = idx)) as [->|Hne].
      * exists (idx, e). split; [left | simpl; lia].
      * apply Hcover; [lia | done].
  - (* idle *)
    specialize (IH (seen ++ [energy])).
    rewrite length_app, <- app_assoc in IH. simpl in IH.
    destruct IH as (Hord & Hends & Hcover); [lia | done |].
    split; [|split].
    + eapply spans_ordered_weaken; [|exact Hord]. lia.
    + done.
    + intros i Hi Hv. destruct (decide (i = idx)) as [->|Hne].
      * exfalso. destruct Hv as [_ (energy' & Hlook & Hge')].
        subst idx. rewrite Nat2Z.id, list_lookup_middle in Hlook by done.
        congruence.
      * apply Hcover; [lia | done].
  - (* track *)
    destruct Hok as (Hsl & Hs & Hl).
    specialize (IH (seen ++ [energy])).
    rewrite length_app, <- app_assoc in IH. simpl in IH.
    destruct IH as ((e & rest & -> & He & Hrest) & Hends & Hcover).
    { lia. }
    { subst idx. split; [rewrite length_app; simpl; lia|].
      split; [by apply voiced_app | by apply voiced_snoc]. }
    split; [|split].
    + exists e, rest. repeat split; [lia | lia | done].
    + done.
    + intros i Hi Hv. destruct (decide (i = idx)) as [->|Hne].
      * exists (s, e). split; [left | simpl; lia].
      * apply Hcover; [lia | done].
  - (* close *)
    destruct Hok as (Hsl & Hs & Hl).
    specialize (IH (seen ++ [energy])).
    rewrite length_app, <- app_assoc in IH. simpl in IH.
    destruct IH as (Hord & Hends & Hcover); [lia | done |].
    rewrite length_app. simpl length.
    split; [|split].
    + exists (l + 1)%Z, spans. repeat split; [lia | lia |].
      rewrite length_app in Hord. simpl length in Hord.
      eapply spans_ordered_weaken; [|exact Hord]. lia.
    + constructor; [|by rewrite length_app in Hends || exact Hends].
      simpl. replace (l + 1 - 1)%Z with l by lia.
      split; by apply voiced_app.
    + intros i Hi Hv. destruct (decide (i = idx)) as [->|Hne].
      * exfalso. destruct Hv as [_ (energy' & Hlook & Hge')].
        subst idx. rewrite Nat2Z.id, list_lookup_middle in Hlook by done.
        injection Hlook as <-. apply ltb_not_geb in Hlt. congruence.
      * destruct (Hcover i) as (span & Hin & Hspan); [lia | done |].
        exists span. split; [by right | done].
  - (* hold *)
    destruct Hok as (Hsl & Hs & Hl).
    specialize (IH (seen ++ [energy])).
    rewrite length_app, <- app_assoc in IH. simpl in IH.
    destruct IH as ((e & rest & -> & He & Hrest) & Hends & Hcover).
    { lia. }
    { split; [rewrite length_app; simpl; lia|].
      split; by apply voiced_app. }
    split; [|split].
    + exists e, rest. repeat split; [lia | lia | done].
    + done.
    + intros i Hi Hv. destruct (decide (i = idx)) as [->|Hne].
      * exfalso. destruct Hv as [_ (energy' & Hlook & Hge')].
        subst idx. rewrite Nat2Z.id, list_lookup_middle in Hlook by done.
        congruence.
      * apply Hcover; [lia | done].
Qed.

(** X1. The segments the scan emits are the conversion of frame spans that
    are non-empty, lie inside the clip, come in increasing order and are
    separated by at least one frame; n frames give at most (n + 1) / 2
    segments. *)
Theorem scan_spans_ordered (thr : float) (hop : Z) (frames : list float) :
  exists spans,
    scan_segments thr hop frames = imap (span_segment hop) spans /\
    spans_ordered 0 (Z.of_nat (length frames)) spans /\
    (2 * length (scan_segments thr hop frames) <= length frames + 1)%nat.
Proof.
  destruct (scan_segments_spans thr hop frames) as (spans & Hrun & Heq).
  destruct (vad_run_spans _ _ _ _ _ Hrun [] eq_refl I) as (Hord & _ & _).
  simpl in Hord. exists spans. split; [done|]. split; [done|].
  rewrite Heq, length_imap.
  pose proof (spans_ordered_count 0 (Z.of_nat (length frames)) spans
                ltac:(lia) Hord). lia.
Qed.

(** X2. Every frame at or above the threshold lies inside one of the spans
    the scan emits, and every emitted span starts and ends on such a frame:
    no voiced frame is dropped and no span opens or closes on silence. *)
Theorem scan_spans_cover_voiced (thr : float) (hop : Z) (frames : list float) :
  exists spans,
    scan_segments thr hop frames = imap (span_segment hop) spans /\
    Forall (fun span => voiced thr frames span.1 /\
                        voiced thr frames (span.2 - 1)%Z) spans /\
    forall i, voiced thr frames i ->
      exists span, span ∈ spans /\ (span.1 <= i < span.2)%Z.
Proof.
  destruct (scan_segments_spans thr hop frames) as (spans & Hrun & Heq).
  destruct (vad_run_spans _ _ _ _ _ Hrun [] eq_refl I) as (_ & Hends & Hcover).
  simpl in Hends, Hcover. exists spans. split; [done|]. split; [done|].
  intros i Hi. apply Hcover; [|done]. by destruct Hi.
Qed.

Lemma diarize_cases (d : LightweightDiarizer) (sig : Signal) :
  diarize d sig = [fallback_segment sig] \/
  exists span spans, diarize d sig = imap (span_segment (hop_length d)) (span :: spans).
Proof.
  unfold diarize.
  destruct (scan_segments_spans (threshold d sig) (hop_length d) (rms_norm sig))
    as (spans & _ & ->).
  destruct spans as [|span spans]; [by left|]. right. by exists span, spans.
Qed.

(** X3. The diarizer never returns an empty list; its first segment is
    "speaker_1", two consecutive segments never carry the same label, and
    every confidence is 0.5 or 0.2. *)
Theorem diarize_result_shape (d : LightweightDiarizer) (sig : Signal) :
  (exists first, diarize d sig !! 0%nat = Some first /\ seg_speaker first = speaker_1) /\
  (forall k a b, diarize d sig !! k = Some a -> diarize d sig !! S k = Some b ->
     seg_speaker a <> seg_speaker b) /\
  (forall seg, seg ∈ diarize d sig ->
     seg_confidence seg = 0.5 \/ seg_confidence seg = 0.2).
Proof.
  destruct (diarize_cases d sig) as [->|(span & spans & ->)].
  - split; [by eexists|]. split; [by intros [|k] a b Ha Hb|].
    intros seg ->%list_elem_of_singleton. by right.
  - split; [by eexists|]. split.
    + intros k a b Ha Hb. rewrite list_lookup_imap in Ha, Hb.
      destruct ((span :: spans) !! k) as [sa|]; [|done].
      destruct ((span :: spans) !! S k) as [sb|]; [|done].
      injection Ha as <-. injection Hb as <-.
      unfold span_segment. cbn [seg_speaker].
      rewrite Nat.even_succ, <- Nat.negb_even.
      destruct (Nat.even k); simpl; intros Heq; vm_compute in Heq; discriminate.
    + intros seg (k & sp & -> & _)%elem_of_lookup_imap. by left.
Qed.

(** ** Strings: trimming and splitting *)

Lemma lstrip_shape (s : pystr) :
  lstrip s = [] \/ exists c t, lstrip s = c :: t /\ isspace c = false.
Proof.
  induction s as [|c s IH]; simpl; [by left|].
  destruct (isspace c) eqn:Hc; [done|]. right. by exists c, s.
Qed.

Lemma lstrip_nonspace (c : pychar) (s : pystr) :
  isspace c = false -> lstrip (c :: s) = c :: s.
Proof. intros Hc. simpl. by rewrite Hc. Qed.

Lemma lstrip_snoc_nonspace (s : pystr) (c : pychar) :
  isspace c = false -> lstrip (s ++ [c]) = lstrip s ++ [c].
Proof.
  intros Hc. induction s as [|a s IH]; simpl; [by rewrite Hc|].
  destruct (isspace a); done.
Qed.

Lemma rstrip_cons_nonspace (c : pychar) (s : pystr) :
  isspace c = false -> rstrip (c :: s) = c :: rstrip s.
Proof.
  intros Hc. unfold rstrip. simpl.
  by rewrite lstrip_snoc_nonspace, rev_app_distr by done.
Qed.

Lemma lstrip_idemp (s : pystr) : lstrip (lstrip s) = lstrip s.
Proof.
  destruct (lstrip_shape s) as [->|(c & t & -> & Hc)]; [done|].
  by apply lstrip_nonspace.
Qed.

Lemma rstrip_idemp (s : pystr) : rstrip (rstrip s) = rstrip s.
Proof. unfold rstrip. by rewrite rev_involutive, lstrip_idemp. Qed.

(** [strip] keeps the first code point that is not whitespace and trims the
    rest on the right. *)
Lemma strip_shape (s : pystr) :
  strip s = [] \/ exists c t, strip s = c :: rstrip t /\ isspace c = false.
Proof.
  unfold strip. destruct (lstrip_shape s) as [->|(c & t & -> & Hc)]; [by left|].
  right. exists c, t. by rewrite rstrip_cons_nonspace.
Qed.

Lemma strip_idemp (s : pystr) : strip (strip s) = strip s.
Proof.
  destruct (strip_shape s) as [->|(c & t & -> & Hc)]; [done|].
  unfold strip at 1. rewrite lstrip_nonspace by done.
  by rewrite rstrip_cons_nonspace, rstrip_idemp.
Qed.

Lemma rstrip_strip (s : pystr) : rstrip (strip s) = strip s.
Proof. unfold strip. apply rstrip_idemp. Qed.

Lemma lstrip_strip (s : pystr) : lstrip (strip s) = strip s.
Proof.
  destruct (strip_shape s) as [->|(c & t & -> & Hc)]; [done|].
  by apply lstrip_nonspace.
Qed.

(** A right-trimmed, non-empty string keeps what is put before it. *)
Lemma rstrip_app_trimmed (a b : pystr) :
  b <> [] -> rstrip b = b -> rstrip (a ++ b) = a ++ b.
Proof.
  intros Hne Hb. unfold rstrip in *. rewrite rev_app_distr.
  apply (f_equal (@rev _)) in Hb. rewrite rev_involutive in Hb.
  destruct (rev b) as [|d u] eqn:Hrev.
  { apply (f_equal (@rev _)) in Hrev. rewrite rev_involutive in Hrev. done. }
  destruct (lstrip_shape (d :: u)) as [Hnil|(c & t & Hct & Hc)];
    [congruence|].
  rewrite Hb in Hct. injection Hct as <- <-.
  change ((d :: u) ++ rev a) with (d :: (u ++ rev a)).
  rewrite lstrip_nonspace by done.
  change (d :: u ++ rev a) with ((d :: u) ++ rev a).
  by rewrite <- Hrev, <- rev_app_distr, rev_involutive.
Qed.

(** [split] yields no token exactly on strings of whitespace. *)
Lemma split_from_nil (cur s : pystr) :
  split_from cur s = [] <-> cur = [] /\ Forall (fun c => isspace c = true) s.
Proof.
  revert cur. induction s as [|c s IH]; intros cur; simpl.
  - destruct cur; split; [done | intros [? _]; done | done | intros [? _]; done].
  - destruct (isspace c) eqn:Hc.
    + destruct cur as [|a cur].
      * rewrite IH. split; intros [? ?]; split; try done.
        -- by constructor.
        -- by eapply Forall_cons_1.
      * split; [done | intros [? _]; done].
    + rewrite IH. split; [intros [? _]; done|].
      intros [_ Hall]. apply Forall_cons_1 in Hall as [? _]. congruence.
Qed.

Lemma lstrip_nil (s : pystr) :
  lstrip s = [] <-> Forall (fun c => isspace c = true) s.
Proof.
  induction s as [|c s IH]; simpl; [by split; [constructor|]|].
  destruct (isspace c) eqn:Hc.
  - rewrite IH. split; [by constructor | by intros [_ ?]%Forall_cons_1].
  - split; [done|]. intros [? _]%Forall_cons_1. congruence.
Qed.

Lemma strip_nil (s : pystr) :
  strip s = [] <-> Forall (fun c => isspace c = true) s.
Proof.
  rewrite <- lstrip_nil. unfold strip.
  destruct (lstrip_shape s) as [->|(c & t & -> & Hc)]; [done|].
  by rewrite rstrip_cons_nonspace.
Qed.

Lemma split_nil (s : pystr) : split s = [] <-> strip s = [].
Proof.
  unfold split. rewrite split_from_nil, strip_nil.
  split; [by intros [_ ?] | by intros ?].
Qed.

(** ** SpeakerAggregator: what the groups keep *)

Lemma filter_split_perm {A} (f : A -> bool) (l : list A) :
  List.filter f l ++ List.filter (fun x => negb (f x)) l ≡ₚ l.
Proof.
  induction l as [|a l IH]; simpl; [done|].
  destruct (f a); simpl.
  - by rewrite IH.
  - by rewrite <- Permutation_middle, IH.
Qed.

Lemma group_of_filter_other (k sp : pystr) (segs : list AlignedSegment) :
  sp <> k ->
  group_of sp (List.filter (fun seg => negb (bool_decide (al_speaker seg = k))) segs)
  = group_of sp segs.
Proof.
  intros Hne. induction segs as [|seg segs IH]; simpl; [done|].
  destruct (decide (al_speaker seg = k)) as [Hk|Hk].
  - rewrite (bool_decide_eq_true_2 _ Hk). simpl.
    rewrite bool_decide_eq_false_2 by congruence. done.
  - rewrite (bool_decide_eq_false_2 _ Hk). simpl. by rewrite IH.
Qed.

Lemma concat_groups_perm (keys : list pystr) :
  NoDup keys ->
  forall segs, (forall seg, seg ∈ segs -> al_speaker seg ∈ keys) ->
    concat ((fun sp => group_of sp segs) <$> keys) ≡ₚ segs.
Proof.
  induction 1 as [|k keys Hk Hnd IH]; intros segs Hall.
  - destruct segs as [|seg segs]; [done|].
    specialize (Hall seg ltac:(left)). by apply elem_of_nil in Hall.
  - set (rest := List.filter (fun seg => negb (bool_decide (al_speaker seg = k))) segs).
    rewrite fmap_cons. simpl concat.
    transitivity (group_of k segs ++ rest);
      [|apply (filter_split_perm (fun seg => bool_decide (al_speaker seg = k)) segs)].
    apply Permutation_app_head.
    transitivity (concat ((fun sp => group_of sp rest) <$> keys)); [|apply IH].
    + assert ((fun sp => group_of sp segs) <$> keys
              = (fun sp => group_of sp rest) <$> keys) as ->; [|done].
      apply list_fmap_ext. intros i sp Hsp.
      symmetry. apply group_of_filter_other. intros ->.
      by apply list_elem_of_lookup_2 in Hsp.
    + intros seg Hseg. unfold rest in Hseg.
      apply list_elem_of_In, filter_In in Hseg as [Hin Hne].
      apply negb_true_iff, bool_decide_eq_false in Hne.
      apply list_elem_of_In in Hin.
      by apply Hall, elem_of_cons in Hin as [?|?].
Qed.

(** X4. The aggregator loses and duplicates no segment: the segment lists of
    its entries, put together, are a rearrangement of the input; every entry
    has at least one segment and holds exactly the input segments of its
    speaker, in input order. *)
Theorem aggregate_partitions_segments (segs : list AlignedSegment) :
  concat (st_segments <$> _aggregate_by_speaker segs) ≡ₚ segs /\
  forall entry, entry ∈ _aggregate_by_speaker segs ->
    st_segments entry <> [] /\
    st_segments entry =
      List.filter (fun seg => bool_decide (al_speaker seg = st_speaker entry)) segs.
Proof.
  rewrite aggregate_by_speaker_eq. split.
  - rewrite <- list_fmap_compose.
    rewrite (list_fmap_ext _ (fun sp => group_of sp segs)
               (first_appearance (al_speaker <$> segs))) by done.
    apply concat_groups_perm; [apply first_appearance_NoDup|].
    intros seg Hseg. apply first_appearance_elem, list_elem_of_fmap. eauto.
  - intros entry (sp & -> & Hsp)%list_elem_of_fmap. split; [|done].
    apply first_appearance_elem, list_elem_of_fmap in Hsp as (seg & -> & Hseg).
    simpl. intros Hnil.
    assert (seg ∈ group_of (al_speaker seg) segs) as Hin.
    { apply list_elem_of_In, filter_In. split; [by apply list_elem_of_In|].
      by apply bool_decide_eq_true. }
    rewrite Hnil in Hin. by apply elem_of_nil in Hin.
Qed.

(** X5. Every text the aggregator returns is trimmed: trimming it again
    changes nothing; and an entry has word count 0 exactly when its text is
    empty. *)
Theorem aggregate_text_trimmed (segs : list AlignedSegment) :
  Forall (fun entry =>
            strip (st_text entry) = st_text entry /\
            (st_word_count entry = 0%Z <-> st_text entry = []))
         (_aggregate_by_speaker segs).
Proof.
  apply Forall_forall. rewrite aggregate_by_speaker_eq.
  intros entry (sp & -> & _)%list_elem_of_fmap. simpl.
  unfold group_text. split; [apply strip_idemp|].
  rewrite <- (strip_idemp (join _ _)) at 2. rewrite <- split_nil.
  split.
  - intros Hz. apply length_zero_iff_nil. lia.
  - intros ->. done.
Qed.

(** ** Labeled transcript *)

Lemma fold_app_bind {A B} (f : A -> list B) (l : list A) (acc : list B) :
  fold_left (fun acc x => acc ++ f x) l acc = acc ++ (l ≫= f).
Proof.
  revert acc. induction l as [|x l IH]; intros acc; simpl.
  - by rewrite app_nil_r.
  - by rewrite IH, <- app_assoc.
Qed.

Lemma join_trimmed (lines : list pystr) :
  lines <> [] -> Forall trimmed_line lines ->
  trimmed_line (join newline lines).
Proof.
  intros Hne Hall. induction Hall as [|l ls Hl Hls IH]; [done|].
  destruct ls as [|l' ls]; [done|].
  specialize (IH ltac:(done)). destruct Hl as (Hl0 & Hl1 & Hl2), IH as (IH0 & IH1 & IH2).
  change (join newline (l :: l' :: ls)) with (l ++ newline ++ join newline (l' :: ls)).
  split; [|split].
  - by destruct l.
  - destruct l as [|c t]; [done|]. simpl in Hl1 |- *.
    destruct (isspace c); [|done].
    exfalso. pose proof (f_equal length Hl1) as Hlen. simpl in Hlen.
    assert (length (lstrip t) <= length t)%nat; [|lia].
    clear. induction t as [|a t IH]; simpl; [done|].
    destruct (isspace a); simpl; lia.
  - rewrite !app_assoc. by apply rstrip_app_trimmed.
Qed.

Section LabeledTranscript.
Context `{CaseMapping}.

Lemma labeled_line_trimmed (entry : SpeakerTranscript) :
  Forall trimmed_line (labeled_line entry).
Proof.
  unfold labeled_line. destruct (truthy (strip (st_text entry))) eqn:Ht;
    [|constructor].
  constructor; [|constructor]. split; [done|]. split; [done|].
  rewrite !app_assoc. apply rstrip_app_trimmed; [|apply rstrip_strip].
  by destruct (strip (st_text entry)).
Qed.

(** X6. The labeled transcript is exactly its lines joined by newlines: one
    "[LABEL] text" line per entry whose text is not blank, in order; the
    final trim removes nothing. It is empty exactly when every entry's text
    is blank. *)
Theorem labeled_transcript_lines (entries : list SpeakerTranscript) :
  _build_labeled_transcript entries = join newline (entries ≫= labeled_line) /\
  (_build_labeled_transcript entries = [] <->
   forall entry, entry ∈ entries -> strip (st_text entry) = []).
Proof.
  unfold _build_labeled_transcript. rewrite fold_app_bind. simpl.
  assert (Forall trimmed_line (entries ≫= labeled_line)) as Hall.
  { apply Forall_forall. intros l (entry & Hl & _)%list_elem_of_bind.
    pose proof (labeled_line_trimmed entry) as Ht.
    rewrite Forall_forall in Ht. by apply Ht. }
  assert (entries ≫= labeled_line = [] <->
          forall entry, entry ∈ entries -> strip (st_text entry) = []) as Hnil.
  { clear Hall. induction entries as [|e entries IH]; simpl.
    - split; [intros _ entry Hin; by apply elem_of_nil in Hin | done].
    - split.
      + intros [He Hrest]%app_eq_nil entry [Heq|Hin]%elem_of_cons.
        * subst entry. unfold labeled_line in He.
          by destruct (strip (st_text e)).
        * by apply IH.
      + intros Hblank.
        assert (labeled_line e = []) as ->
          by (unfold labeled_line; by rewrite (Hblank e) by left).
        apply IH. intros entry Hin. apply Hblank. by right. }
  destruct (entries ≫= labeled_line) as [|l ls] eqn:Hlines.
  - split; [done|]. rewrite <- Hnil. done.
  - destruct (join_trimmed (l :: ls) ltac:(done) Hall) as (Hne & Hl & Hr).
    assert (strip (join newline (l :: ls)) = join newline (l :: ls)) as ->
      by (unfold strip; by rewrite Hl, Hr).
    split; [done|]. rewrite <- Hnil. split; [done | done].
Qed.
End LabeledTranscript.

(** ** RoleInferencer: every input *)

Lemma dict_keys_set {V} (k : pystr) (v : V) (d : list (pystr * V)) :
  dict_keys (dict_set k v d) =
  if bool_decide (k ∈ dict_keys d) then dict_keys d else dict_keys d ++ [k].
Proof.
  induction d as [|[k0 v0] d IH].
  - case_bool_decide as Hin; [by apply elem_of_nil in Hin | done].
  - cbn [dict_set]. destruct (decide (k = k0)) as [->|Hne].
    + rewrite bool_decide_eq_true_2; [done | left].
    + change (dict_keys ((k0, v0) :: dict_set k v d))
        with (k0 :: dict_keys (dict_set k v d)).
      rewrite IH. change (dict_keys ((k0, v0) :: d)) with (k0 :: dict_keys d).
      destruct (decide (k ∈ dict_keys d)).
      * rewrite !bool_decide_eq_true_2; [done | by right | done].
      * rewrite !bool_decide_eq_false_2; [done| |done].
        by intros [?|?]%elem_of_cons.
Qed.

Lemma dict_set_values {V} (P : V -> Prop) (k : pystr) (v : V)
    (d : list (pystr * V)) :
  P v -> Forall (fun kv => P kv.2) d -> Forall (fun kv => P kv.2) (dict_set k v d).
Proof.
  intros Hv. induction 1 as [|[k0 v0] d H0 Hd IH]; simpl.
  - by repeat constructor.
  - destruct (decide (k = k0)); constructor; done.
Qed.

Lemma all_scores_confidence_unit : confidence_unit_on all_scores = true.
Proof. vm_compute. reflexivity. Qed.

Lemma confidence_unit_on_spec (D : list float) :
  confidence_unit_on D = true ->
  forall x y, x ∈ D -> y ∈ D ->
    (0 <=? clamp_confidence (x - y)) = true /\
    (clamp_confidence (x - y) <=? 1) = true.
Proof.
  intros HD x y Hx Hy.
  pose proof (forallb_elem _ _ _ (forallb_elem _ _ _ HD Hx) Hy) as Hxy.
  cbv beta in Hxy. by apply andb_prop in Hxy.
Qed.

Section InferRolesAll.
Context `{CaseMapping}.

(** The [scores] dict after the loop: its keys are the distinct labels in
    order of first appearance, its values are speaker scores. *)
Lemma score_loop_keys (entries : list SpeakerTranscript) :
  forall scores idx seen,
    dict_keys scores = first_appearance seen ->
    dict_keys (score_loop scores idx entries)
    = first_appearance (seen ++ (st_speaker <$> entries)).
Proof.
  induction entries as [|entry entries IH]; intros scores idx seen Hkeys.
  - simpl. by rewrite app_nil_r.
  - simpl score_loop. rewrite fmap_cons, cons_middle, app_assoc.
    apply IH. rewrite dict_keys_set, first_appearance_snoc, Hkeys.
    by rewrite (bool_decide_ext _ _ (first_appearance_elem _ _)).
Qed.

Lemma score_loop_scored (entries : list SpeakerTranscript) :
  forall scores idx,
    Forall scored scores -> Forall scored (score_loop scores idx entries).
Proof.
  induction entries as [|entry entries IH]; intros scores idx Hs; [done|].
  simpl. apply IH. apply (dict_set_values (fun v => v ∈ all_scores)); [|done].
  apply speaker_score_scored.
Qed.

Lemma first_appearance_nonempty (l : pystr) (ls : list pystr) :
  first_appearance (l :: ls) <> [].
Proof. done. Qed.

(** The two first items of the sorted scores, when there are two. *)
Lemma sorted_two (scores : list (pystr * float)) :
  NoDup scores.*1 -> (2 <= length scores)%nat ->
  exists a b rest, sorted_desc scores = a :: b :: rest /\
                   a ∈ scores /\ b ∈ scores /\ a.1 <> b.1.
Proof.
  intros Hnd Hlen. pose proof (sorted_desc_perm scores) as Hperm.
  pose proof (Permutation_length Hperm) as Hl.
  destruct (sorted_desc scores) as [|a [|b rest]];
    [simpl in Hl; lia | simpl in Hl; lia |].
  exists a, b, rest. split; [done|].
  split; [rewrite <- Hperm; left|]. split; [rewrite <- Hperm; right; left|].
  rewrite <- Hperm in Hnd. apply NoDup_cons in Hnd as [Hab _].
  intros Heq. apply Hab. simpl. rewrite Heq. left.
Qed.

(** X7. Whatever the entries, the inferencer's answer is decided by the
    number of distinct speaker labels: none gives "no_data"; one gives
    "single_speaker" with that label as operator and no client; two or more
    give "cue_and_order" with two different labels of the input as operator
    and client. *)
Theorem infer_roles_by_distinct_labels (entries : list SpeakerTranscript) :
  let labels := first_appearance (st_speaker <$> entries) in
  let m := _infer_roles entries in
  match labels with
  | [] => entries = [] /\ m = no_data_mapping
  | [l] =>
      rm_strategy m = py "single_speaker" /\ rm_operator m = Some l /\
      rm_client m = None /\ rm_uncertain m = None
  | _ :: _ :: _ =>
      rm_strategy m = py "cue_and_order" /\
      exists operator client, rm_operator m = Some operator /\
        rm_client m = Some client /\ operator <> client /\
        operator ∈ labels /\ client ∈ labels /\
        rm_uncertain m = Some (rm_confidence m <? 0.5)
  end.
Proof.
  intros labels m. subst labels m.
  destruct entries as [|e0 entries]; [done|].
  pose proof (score_loop_keys (e0 :: entries) [] 0 [] eq_refl) as Hkeys.
  rewrite app_nil_l in Hkeys.
  unfold _infer_roles.
  set (scores := score_loop [] 0 (e0 :: entries)) in *.
  assert (length scores = length (first_appearance (st_speaker <$> e0 :: entries)))
    as Hlen by (by rewrite <- Hkeys; unfold dict_keys; rewrite length_fmap).
  destruct (first_appearance (st_speaker <$> e0 :: entries)) as [|l [|l' ls]] eqn:Hfa.
  - by apply first_appearance_nonempty in Hfa.
  - rewrite Hlen. simpl. by rewrite Hkeys.
  - rewrite Hlen. cbn [length Nat.eqb].
    destruct (sorted_two scores) as (a & b & rest & -> & Ha & Hb & Hab).
    { fold (dict_keys scores). rewrite Hkeys, <- Hfa. apply first_appearance_NoDup. }
    { rewrite Hlen. simpl. lia. }
    destruct a as [op os], b as [cl cs]. simpl in Hab |- *.
    split; [done|]. exists op, cl. repeat split; [done|..].
    + rewrite <- Hkeys. apply list_elem_of_fmap. by exists (op, os).
    + rewrite <- Hkeys. apply list_elem_of_fmap. by exists (cl, cs).
Qed.

(** X8. The confidence the inferencer reports always lies in [0, 1]: it is 0
    for no entry, 0.4 for a single speaker, and otherwise the clamped
    difference of two speaker scores. *)
Theorem infer_roles_confidence_unit (entries : list SpeakerTranscript) :
  (0 <=? rm_confidence (_infer_roles entries)) = true /\
  (rm_confidence (_infer_roles entries) <=? 1) = true.
Proof.
  destruct entries as [|e0 entries]; [done|].
  unfold _infer_roles.
  set (scores := score_loop [] 0 (e0 :: entries)).
  assert (Forall scored scores) as Hscored by (by apply score_loop_scored).
  destruct (length scores =? 1)%nat; [done|].
  pose proof (sorted_desc_perm scores) as Hperm.
  destruct (sorted_desc scores) as [|[op os] [|[cl cs] rest]]; [done..|].
  simpl. rewrite <- Hperm in Hscored.
  apply Forall_cons_1 in Hscored as [Ho Hscored].
  apply Forall_cons_1 in Hscored as [Hc _].
  by apply (confidence_unit_on_spec all_scores all_scores_confidence_unit).
Qed.

(** A list whose neighbours are already in decreasing order is returned
    unchanged by the stable sort. *)
Lemma sorted_desc_fixed (items : list (pystr * float)) :
  (forall k a b, items !! k = Some a -> items !! S k = Some b -> (a.2 <? b.2) = false) ->
  sorted_desc items = items.
Proof.
  induction items as [|x items IH]; intros Hadj; [done|].
  simpl. rewrite IH by (intros k a b Ha Hb; by apply (Hadj (S k))).
  destruct items as [|y items]; [done|]. simpl.
  by rewrite (Hadj 0%nat x y).
Qed.

(** X9. With pairwise distinct labels, two or more entries and no cue phrase
    in any text, position alone decides: the first speaker is the operator,
    the second the client, the confidence is 0.3 and [uncertain] is set. *)
Theorem infer_roles_without_cues (first second : SpeakerTranscript)
    (others : list SpeakerTranscript) :
  let entries := first :: second :: others in
  NoDup (st_speaker <$> entries) ->
  (forall entry, entry ∈ entries ->
     count_cues OPERATOR_CUES (lower (st_text entry)) = 0%nat /\
     count_cues CLIENT_CUES (lower (st_text entry)) = 0%nat) ->
  _infer_roles entries =
  {| rm_operator := Some (st_speaker first);
     rm_client := Some (st_speaker second);
     rm_confidence := 0.3; rm_strategy := py "cue_and_order";
     rm_uncertain := Some true; rm_notes := None |}.
Proof.
  intros entries Hnd Hcues.
  assert (forall k entry, entries !! k = Some entry ->
            speaker_score (Z.of_nat k) entry
            = if (k =? 0)%nat then score_of true 0 0 else score_of false 0 0)
    as Hscore.
  { intros k entry Hk. unfold speaker_score.
    destruct (Hcues entry) as [-> ->]; [by eapply list_elem_of_lookup_2|].
    by destruct k. }
  unfold _infer_roles. change (first :: second :: others) with entries.
  rewrite (score_loop_items entries Hnd).
  assert (length (score_items entries) = S (S (length others))) as ->
    by (unfold score_items; by rewrite length_imap).
  cbn [Nat.eqb].
  rewrite sorted_desc_fixed.
  - simpl. rewrite (Hscore 0%nat first eq_refl), (Hscore 1%nat second eq_refl).
    reflexivity.
  - intros k a b Ha Hb. unfold score_items in Ha, Hb.
    rewrite list_lookup_imap in Ha, Hb.
    destruct (entries !! k) as [ea|] eqn:Hka; [|done].
    destruct (entries !! S k) as [eb|] eqn:Hkb; [|done].
    injection Ha as <-. injection Hb as <-. simpl.
    rewrite (Hscore _ _ Hka), (Hscore _ _ Hkb). by destruct k.
Qed.
End InferRolesAll.

(** ** BalanceComputer: what the balance depends on *)

Lemma role_words_perm (role : pystr) (entries entries' : list SpeakerTranscript) :
  entries ≡ₚ entries' -> role_words role entries = role_words role entries'.
Proof.
  induction 1 as [|e l l' _ IH|e e' l|l l' l'' _ IH1 _ IH2]; simpl.
  - done.
  - by rewrite IH.
  - lia.
  - congruence.
Qed.

Lemma role_words_filter (role : pystr) (entries : list SpeakerTranscript) :
  role = py "operator" \/ role = py "client" ->
  role_words role (List.filter counts_for_balance entries) = role_words role entries.
Proof.
  intros Hrole. induction entries as [|e entries IH]; simpl; [done|].
  unfold counts_for_balance at 1.
  destruct (decide (role_or_speaker e = role)) as [He|He].
  - assert (bool_decide (role_or_speaker e = py "operator")
            || bool_decide (role_or_speaker e = py "client") = true) as ->.
    { destruct Hrole as [-> | ->]; rewrite (bool_decide_eq_true_2 _ He);
        [done | apply orb_true_r]. }
    simpl. rewrite IH. by destruct (decide _).
  - destruct (_ || _); simpl; rewrite IH; [|done].
    by destruct (decide _).
Qed.

Lemma balance_of_words (entries : list SpeakerTranscript) :
  _compute_speaking_balance entries =
  let o := role_words (py "operator") entries in
  let c := role_words (py "client") entries in
  if (o + c =? 0)%Z then no_data_balance
  else
    {| operator_percentage := int_truediv o (o + c) * 100;
       client_percentage := int_truediv c (o + c) * 100;
       operator_words := Some o; client_words := Some c;
       unit_ := Some (py "porcentaje");
       balance_quality :=
         (if (35 <=? int_truediv o (o + c) * 100)
             && (int_truediv o (o + c) * 100 <=? 55)
          then py "BUENO" else py "DESBALANCEADO");
       note := None |}.
Proof.
  unfold _compute_speaking_balance. rewrite balance_fold.
  cbn [fst snd]. rewrite !Z.add_0_l. cbv zeta.
  by destruct (_ =? 0)%Z.
Qed.

(** X10. The speaking balance does not depend on the order of the entries. *)
Theorem speaking_balance_order_free (entries entries' : list SpeakerTranscript) :
  entries ≡ₚ entries' ->
  _compute_speaking_balance entries = _compute_speaking_balance entries'.
Proof.
  intros Hperm. rewrite !balance_of_words.
  by rewrite !(role_words_perm _ _ _ Hperm).
Qed.

(** X11. Entries whose role (or, without a role, speaker label) is neither
    "operator" nor "client" have no influence on the speaking balance. *)
Theorem speaking_balance_ignores_other_roles (entries : list SpeakerTranscript) :
  _compute_speaking_balance (List.filter counts_for_balance entries)
  = _compute_speaking_balance entries.
Proof.
  rewrite !balance_of_words. by rewrite !role_words_filter by auto.
Qed.

(** ** The facade: outcomes, files and calls *)

Section FacadeOutcomes.
Context `{CaseMapping} (env : Env).

Lemma process_audio_undecodable (audio_path : path) (w : World) :
  decode env audio_path = None ->
  process_audio env audio_path w =
  (Raised DecodingError, extend w [CallDetectProfile audio_path]).
Proof.
  intros Hdecode. unfold process_audio, detect_audio_profile.
  rewrite !bind_run, log_run, Hdecode. done.
Qed.

(** The three ways a run can go, by what the collaborators answer. *)
Lemma process_audio_cases (audio_path : path) (w : World) :
  (decode env audio_path = None /\
   process_audio env audio_path w =
     (Raised DecodingError, extend w [CallDetectProfile audio_path]))
  \/ (exists audio, decode env audio_path = Some audio /\
        channels (audio_profile_of audio) = 2%Z /\
        process_audio env audio_path w =
          _process_stereo env audio_path (audio_profile_of audio)
                          (extend w [CallDetectProfile audio_path]))
  \/ (exists audio, decode env audio_path = Some audio /\
        channels (audio_profile_of audio) <> 2%Z /\
        process_audio env audio_path w =
          _process_mono env audio_path (audio_profile_of audio)
                        (extend w [CallDetectProfile audio_path])).
Proof.
  destruct (decode env audio_path) as [audio|] eqn:Hdecode.
  - destruct (decide (channels (audio_profile_of audio) = 2%Z)) as [Hc|Hc].
    + right. left. exists audio. by rewrite (process_audio_stereo _ _ _ _ Hdecode Hc).
    + right. right. exists audio. by rewrite (process_audio_mono _ _ _ _ Hdecode Hc).
  - left. by rewrite process_audio_undecodable.
Qed.

(** X12. The facade never raises the splitter's ValueError. It raises a
    decoding error exactly when the file cannot be decoded, and an
    AttributeError exactly when the file decodes and a transcription it needs
    (either channel for stereo, the whole file for mono) returns None. *)
Theorem process_audio_exceptions (audio_path : path) (w : World) :
  let out := (process_audio env audio_path w).1 in
  out <> Raised ValueError /\
  (out = Raised DecodingError <-> decode env audio_path = None) /\
  (out = Raised AttributeError <->
   exists audio, decode env audio_path = Some audio /\
     if is_stereo (audio_profile_of audio)
     then transcribe_file env (tmp_left env) false = None \/
          transcribe_file env (tmp_right env) false = None
     else transcribe_file env audio_path true = None).
Proof.
  cbv zeta.
  destruct (process_audio_cases audio_path w)
    as [[Hd ->]|[(audio & Hd & Hc & ->)|(audio & Hd & Hc & ->)]].
  - simpl. split; [done|]. split; [done|].
    split; [done|]. intros (audio & Ha & _). congruence.
  - rewrite (process_stereo_run _ _ _ _ _ Hd Hc), Hd.
    unfold is_stereo.
    destruct (transcribe_file env (tmp_left env) false),
             (transcribe_file env (tmp_right env) false); simpl;
      (split; [done|]); (split; [done|]); split; try done.
    + intros (a & [= <-] & Hnone). rewrite Hc in Hnone. simpl in Hnone.
      by destruct Hnone.
    + intros _. exists audio. rewrite Hc. simpl. auto.
    + intros _. exists audio. rewrite Hc. simpl. auto.
    + intros _. exists audio. rewrite Hc. simpl. auto.
  - rewrite (process_mono_run _ _ _ _ _ Hd), Hd. unfold is_stereo.
    apply Z.eqb_neq in Hc as Hcb.
    destruct (transcribe_file env audio_path true); simpl;
      (split; [done|]); (split; [done|]); split; try done.
    + intros (a & [= <-] & Hnone). by rewrite Hcb in Hnone.
    + intros _. exists audio. by rewrite Hcb.
Qed.

(** X13. The facade never removes a file, and it creates files only on an
    input that decodes as stereo: on every other input the files on disk are
    the same before and after. *)
Theorem process_audio_files (audio_path : path) (w : World) :
  let w' := (process_audio env audio_path w).2 in
  files w ⊆ files w' /\
  ((forall audio, decode env audio_path = Some audio ->
      channels (audio_profile_of audio) <> 2%Z) ->
   files w' = files w).
Proof.
  cbv zeta.
  destruct (process_audio_cases audio_path w)
    as [[Hd ->]|[(audio & Hd & Hc & ->)|(audio & Hd & Hc & ->)]].
  - simpl. done.
  - rewrite (process_stereo_run _ _ _ _ _ Hd Hc). split.
    + destruct (transcribe_file env (tmp_left env) false),
               (transcribe_file env (tmp_right env) false); simpl; set_solver.
    + intros Hmono. by destruct (Hmono audio Hd).
  - rewrite (process_mono_run _ _ _ _ _ Hd).
    destruct (transcribe_file env audio_path true); simpl; done.
Qed.

(** X14. In every result the facade returns, the speaker summary repeats
    the transcript's entries, role mapping, sentiment and speaking balance;
    the balance is the one of the entries, the text is their labeled
    transcript, the character count is the length of the text, and the audio
    profile is the one the decoder reported. *)
Theorem process_audio_result_consistent (audio_path : path) (w : World) :
  match (process_audio env audio_path w).1 with
  | Raised _ => True
  | Returned r =>
      let t := pr_transcript r in
      let s := pr_speaker_summary r in
      ss_speakers s = tr_transcript_by_speaker t /\
      ss_role_mapping s = tr_role_mapping t /\
      ss_sentiment_by_role s = tr_sentiment_by_role t /\
      ss_speaking_balance s = tr_speaking_balance t /\
      tr_speaking_balance t = _compute_speaking_balance (tr_transcript_by_speaker t) /\
      tr_text t = _build_labeled_transcript (tr_transcript_by_speaker t) /\
      tr_char_count t = Z.of_nat (length (tr_text t)) /\
      ss_audio_profile s = pr_audio_profile r /\
      exists audio, decode env audio_path = Some audio /\
                    pr_audio_profile r = audio_profile_of audio
  end.
Proof.
  destruct (process_audio_cases audio_path w)
    as [[Hd ->]|[(audio & Hd & Hc & ->)|(audio & Hd & Hc & ->)]].
  - done.
  - rewrite (process_stereo_run _ _ _ _ _ Hd Hc).
    destruct (transcribe_file env (tmp_left env) false),
             (transcribe_file env (tmp_right env) false); simpl; try done.
    repeat split. by exists audio.
  - rewrite (process_mono_run _ _ _ _ _ Hd).
    destruct (transcribe_file env audio_path true); simpl; [|done].
    repeat split. by exists audio.
Qed.

(** X15. The facade asks for one transcription of each temporary channel
    file, without segments, on a stereo input, for one transcription of the
    file itself, with segments, on any other decodable input, and for none
    when the file cannot be decoded. *)
Theorem process_audio_transcribe_calls (audio_path : path) (w : World) :
  List.filter is_transcribe_call
    (new_calls w (process_audio env audio_path w).2) =
  match decode env audio_path with
  | None => []
  | Some audio =>
      if is_stereo (audio_profile_of audio)
      then [CallTranscribe (tmp_left env) false;
            CallTranscribe (tmp_right env) false]
      else [CallTranscribe audio_path true]
  end.
Proof.
  assert (forall entries,
            List.filter is_transcribe_call (sentiment_calls env entries) = [])
    as Hsent.
  { intros entries. unfold sentiment_calls, role_calls.
    destruct (sentiment_analyzer env); [|done].
    rewrite !List.filter_app.
    by repeat match goal with |- context [truthy ?t] => destruct (truthy t) end. }
  unfold new_calls.
  destruct (process_audio_cases audio_path w)
    as [[Hd ->]|[(audio & Hd & Hc & ->)|(audio & Hd & Hc & ->)]]; rewrite Hd.
  - simpl. by rewrite drop_app_length.
  - rewrite (process_stereo_run _ _ _ _ _ Hd Hc). unfold is_stereo.
    rewrite Hc. simpl.
    destruct (transcribe_file env (tmp_left env) false),
             (transcribe_file env (tmp_right env) false); simpl;
      rewrite <- ?app_assoc, drop_app_length; simpl; rewrite ?Hsent; done.
  - rewrite (process_mono_run _ _ _ _ _ Hd). unfold is_stereo.
    apply Z.eqb_neq in Hc as ->.
    destruct (transcribe_file env audio_path true); simpl;
      rewrite <- ?app_assoc, drop_app_length; simpl; rewrite ?Hsent; done.
Qed.
End FacadeOutcomes.

(** ** The KPI speaking balance *)

Lemma split_from_app_space (cur a b : pystr) (c : pychar) :
  isspace c = true ->
  split_from cur (a ++ c :: b) = split_from cur a ++ split_from [] b.
Proof.
  intros Hc. revert cur. induction a as [|x a IH]; intros cur; simpl.
  - rewrite Hc. by destruct cur.
  - destruct (isspace x); [|apply IH].
    destruct cur; simpl; by rewrite IH.
Qed.

(** Tokens do not straddle a whitespace separator. *)
Lemma split_join_space (sep : pychar) (parts : list pystr) :
  isspace sep = true ->
  split (join [sep] parts) = concat (split <$> parts).
Proof.
  intros Hsep. induction parts as [|p parts IH]; [done|].
  destruct parts as [|q parts].
  - simpl. by rewrite app_nil_r.
  - change (join [sep] (p :: q :: parts)) with (p ++ sep :: join [sep] (q :: parts)).
    unfold split in *. rewrite split_from_app_space by done.
    by rewrite IH.
Qed.

Lemma split_on_from_join (sep : pychar) (cur s : pystr) :
  join [sep] (split_on_from sep cur s) = rev cur ++ s.
Proof.
  revert cur. induction s as [|c s IH]; intros cur; simpl.
  - by rewrite app_nil_r.
  - destruct (c =? sep)%N eqn:Hc.
    + apply N.eqb_eq in Hc as ->.
      specialize (IH []). simpl in IH.
      destruct (split_on_from sep [] s) as [|p ps] eqn:Hs.
      { destruct s; simpl in Hs; [done|]. by destruct (_ =? _)%N. }
      change (join [sep] (rev cur :: p :: ps))
        with (rev cur ++ sep :: join [sep] (p :: ps)).
      by rewrite IH.
    + rewrite IH. simpl. by rewrite <- app_assoc.
Qed.

(** Cutting at a separator and joining with it gives the string back. *)
Lemma join_split_on (sep : pychar) (s : pystr) : join [sep] (split_on sep s) = s.
Proof. apply (split_on_from_join sep [] s). Qed.

Lemma concat_split_nonblank (pieces : list pystr) :
  concat (split <$> List.filter (fun l => truthy (strip l)) pieces)
  = concat (split <$> pieces).
Proof.
  induction pieces as [|p pieces IH]; [done|].
  cbn [List.filter]. rewrite fmap_cons, concat_cons, <- IH.
  destruct (strip p) eqn:Hp; cbn [truthy].
  - apply split_nil in Hp as ->. done.
  - by rewrite fmap_cons, concat_cons.
Qed.

(** The tokens of a transcript are the tokens of its non-blank lines. *)
Lemma split_nonblank_lines (transcript : pystr) :
  split transcript = concat (split <$> nonblank_lines transcript).
Proof.
  unfold nonblank_lines.
  rewrite (concat_split_nonblank (split_on 10%N transcript)).
  rewrite <- (split_join_space 10%N) by done. by rewrite join_split_on.
Qed.

Lemma words_of_lines_concat (lines : list pystr) :
  words_of_lines lines = Z.of_nat (length (concat (split <$> lines))).
Proof. unfold words_of_lines. by rewrite (split_join_space 32%N). Qed.

Lemma nonblank_lines_nil (transcript : pystr) :
  nonblank_lines transcript = [] <-> strip transcript = [].
Proof.
  rewrite <- split_nil, split_nonblank_lines.
  split; [by intros -> |].
  intros Hnil. destruct (nonblank_lines transcript) as [|l ls] eqn:Hl; [done|].
  exfalso.
  assert (l ∈ nonblank_lines transcript) as Hin by (rewrite Hl; left).
  unfold nonblank_lines in Hin.
  apply list_elem_of_In, filter_In in Hin as [_ Ht].
  simpl in Hnil. apply app_eq_nil in Hnil as [Hs _].
  apply split_nil in Hs. by rewrite Hs in Ht.
Qed.

(** X16. Without a speaker summary the KPI falls back on the transcript's
    lines. A transcript of whitespace only gives the "ratio" answer with
    value 0.5. Any other transcript gives word counts that split the
    transcript's words between the two sides: operator_words + client_words
    is the number of whitespace-separated tokens of the transcript, and is
    positive. *)
Theorem kpi_fallback_counts_every_word (transcript : pystr) :
  let kpi := _calculate_speaking_balance transcript None in
  (strip transcript = [] ->
   kb_value kpi = Some 0.5 /\ kb_unit kpi = py "ratio" /\
   kb_operator_words kpi = None /\ kb_client_words kpi = None) /\
  (strip transcript <> [] ->
   exists o c, kb_operator_words kpi = Some o /\ kb_client_words kpi = Some c /\
     (0 <= o)%Z /\ (0 <= c)%Z /\ (0 < o + c)%Z /\
     (o + c)%Z = Z.of_nat (length (split transcript))).
Proof.
  cbv zeta. unfold _calculate_speaking_balance.
  pose proof (nonblank_lines_nil transcript) as Hnil.
  pose proof (split_nonblank_lines transcript) as Hsplit.
  destruct (nonblank_lines transcript) as [|l ls] eqn:Hl.
  - split; [done|]. intros Hne. by destruct Hne; apply Hnil.
  - split; [intros Hs; apply Hnil in Hs; done|]. intros Hne.
    set (lines := l :: ls) in *. set (mid := (length lines / 2)%nat).
    exists (words_of_lines (take mid lines)), (words_of_lines (drop mid lines)).
    cbn [kb_operator_words kb_client_words].
    assert (words_of_lines (take mid lines) + words_of_lines (drop mid lines)
            = Z.of_nat (length (split transcript)))%Z as Hsum.
    { rewrite !words_of_lines_concat, Hsplit, <- Nat2Z.inj_add, <- length_app.
      by rewrite <- concat_app, <- fmap_app, take_drop. }
    assert (forall ls', 0 <= words_of_lines ls')%Z as Hpos
      by (intros ls'; unfold words_of_lines; lia).
    pose proof (Hpos (take mid lines)). pose proof (Hpos (drop mid lines)).
    split; [done|]. split; [done|]. split; [done|]. split; [done|].
    split; [|done]. rewrite Hsum.
    destruct (split transcript) eqn:Hs; [|simpl; lia].
    apply split_nil in Hs. done.
Qed.

(** ** The facade and its callers *)

Lemma stereo_role_words (operator_tx client_tx : Transcription)
    (profile : AudioProfile) :
  let entries := stereo_entries operator_tx client_tx profile in
  role_words (py "operator") entries
    = Z.of_nat (length (split (get_str (tx_text operator_tx) []))) /\
  role_words (py "client") entries
    = Z.of_nat (length (split (get_str (tx_text client_tx) []))).
Proof.
  cbv zeta. unfold stereo_entries, role_words, channel_entry, role_or_speaker.
  cbn [foldr st_role st_word_count st_speaker].
  change (truthy (py "operator")) with true.
  change (truthy (py "client")) with true. cbv iota.
  rewrite !(decide_True (P := py "operator" = py "operator")) by done.
  rewrite !(decide_True (P := py "client" = py "client")) by done.
  rewrite (decide_False (P := py "client" = py "operator"))
    by (intros Heq; vm_compute in Heq; discriminate).
  rewrite (decide_False (P := py "operator" = py "client"))
    by (intros Heq; vm_compute in Heq; discriminate).
  lia.
Qed.

Lemma stereo_role_text (operator_tx client_tx : Transcription)
    (profile : AudioProfile) :
  let entries := stereo_entries operator_tx client_tx profile in
  role_text (py "operator") entries = get_str (tx_text operator_tx) [] /\
  role_text (py "client") entries = get_str (tx_text client_tx) [].
Proof.
  cbv zeta. unfold stereo_entries, role_text, channel_entry.
  cbn [List.filter st_role].
  rewrite !(bool_decide_eq_true_2 (Some (py "operator") = Some (py "operator")))
    by done.
  rewrite !(bool_decide_eq_true_2 (Some (py "client") = Some (py "client")))
    by done.
  rewrite (bool_decide_eq_false_2 (Some (py "client") = Some (py "operator")))
    by (intros Heq; vm_compute in Heq; discriminate).
  rewrite (bool_decide_eq_false_2 (Some (py "operator") = Some (py "client")))
    by (intros Heq; vm_compute in Heq; discriminate).
  split; reflexivity.
Qed.

Section FacadeCallers.
Context `{CaseMapping} (env : Env).

(** No entry of the mono path counts for the operator or the client. *)
Lemma mono_entries_unlabelled (whisper : list WhisperSegment) (sig : Signal) entry :
  entry ∈ _aggregate_by_speaker
            (_align_segments whisper (diarize default_diarizer sig)) ->
  role_or_speaker entry <> py "operator" /\ role_or_speaker entry <> py "client".
Proof.
  intros Hentry. unfold role_or_speaker.
  apply aggregate_entries in Hentry as [-> (a & -> & Ha)%list_elem_of_fmap].
  assert (al_speaker a = speaker_1 \/ al_speaker a = speaker_2) as [-> | ->].
  { apply align_labels in Ha as [Ha|(ds & Hds & ->)]; [by left|].
    by apply diarize_labels in Hds. }
  all: split; intros Heq; vm_compute in Heq; discriminate.
Qed.

(** X17. On a stereo input that the facade answers, both channels were
    transcribed, the two entries carry the channel texts in the order left,
    right, and every figure is computed from them: the speaking balance from
    the numbers of whitespace-separated words of the left and of the right
    text, the operator and client sentiment from the left and the right text
    (no value for an empty one), the overall sentiment from the labeled
    transcript; the duration is the decoder's, not the transcriber's. *)
Theorem process_stereo_channel_figures (audio_path : path) (audio : Audio)
    (w w' : World) (r : ProcessResult) :
  decode env audio_path = Some audio ->
  channels (audio_profile_of audio) = 2%Z ->
  process_audio env audio_path w = (Returned r, w') ->
  exists operator_tx client_tx,
    transcribe_file env (tmp_left env) false = Some operator_tx /\
    transcribe_file env (tmp_right env) false = Some client_tx /\
    let t := pr_transcript r in
    let left_text := get_str (tx_text operator_tx) [] in
    let right_text := get_str (tx_text client_tx) [] in
    let o := Z.of_nat (length (split left_text)) in
    let c := Z.of_nat (length (split right_text)) in
    st_text <$> tr_transcript_by_speaker t = [left_text; right_text] /\
    st_word_count <$> tr_transcript_by_speaker t = [o; c] /\
    tr_speaking_balance t =
      (if (o + c =? 0)%Z then no_data_balance
       else
         {| operator_percentage := int_truediv o (o + c) * 100;
            client_percentage := int_truediv c (o + c) * 100;
            operator_words := Some o; client_words := Some c;
            unit_ := Some (py "porcentaje");
            balance_quality :=
              (if (35 <=? int_truediv o (o + c) * 100)
                  && (int_truediv o (o + c) * 100 <=? 55)
               then py "BUENO" else py "DESBALANCEADO");
            note := None |}) /\
    tr_sentiment_by_role t =
      match sentiment_analyzer env with
      | None => NoSentiment
      | Some analyzer =>
          RoleSentiment (if truthy left_text then Some (analyzer left_text) else None)
                        (if truthy right_text then Some (analyzer right_text) else None)
                        (analyzer (tr_text t))
      end /\
    tr_duration t = duration_seconds (audio_profile_of audio).
Proof.
  intros Hdecode Hchannels.
  rewrite (process_audio_stereo _ _ _ _ Hdecode Hchannels).
  rewrite (process_stereo_run _ _ _ _ _ Hdecode Hchannels).
  destruct (transcribe_file env (tmp_left env) false) as [operator_tx|];
    [|done].
  destruct (transcribe_file env (tmp_right env) false) as [client_tx|];
    [|done].
  intros [= <- _]. exists operator_tx, client_tx.
  split; [done|]. split; [done|].
  cbn [pr_transcript tr_transcript_by_speaker tr_speaking_balance
       tr_sentiment_by_role tr_text tr_duration].
  destruct (stereo_role_words operator_tx client_tx (audio_profile_of audio))
    as [Ho Hc].
  destruct (stereo_role_text operator_tx client_tx (audio_profile_of audio))
    as [Hot Hct].
  split; [done|]. split; [done|]. split.
  - rewrite balance_of_words. cbv zeta. by rewrite Ho, Hc.
  - split; [|done]. unfold sentiment_result, role_verdict.
    by rewrite Hot, Hct.
Qed.

(** X18. For a call that went through the mono path the KPI calculator,
    given the facade's speaker summary, reports no data: 0 % for both
    sides, 0 words, quality "SIN_DATOS", whatever the transcript says. *)
Theorem kpi_balance_after_mono_call (audio_path : path) (audio : Audio)
    (w w' : World) (r : ProcessResult) (transcript : pystr) :
  decode env audio_path = Some audio ->
  channels (audio_profile_of audio) <> 2%Z ->
  process_audio env audio_path w = (Returned r, w') ->
  _calculate_speaking_balance transcript (Some (pr_speaker_summary r)) =
  {| kb_value := None;
     kb_operator_percentage := Some 0; kb_client_percentage := Some 0;
     kb_operator_words := Some 0%Z; kb_client_words := Some 0%Z;
     kb_balance_quality := Some (py "SIN_DATOS");
     kb_unit := py "porcentaje";
     kb_note := Some (py "calculado_con_diarizacion") |}.
Proof.
  intros Hdecode Hchannels.
  rewrite (process_audio_mono _ _ _ _ Hdecode Hchannels).
  rewrite (process_mono_run _ _ _ _ _ Hdecode).
  destruct (transcribe_file env audio_path true) as [whisper_result|]; [|done].
  intros [= <- _].
  unfold _calculate_speaking_balance.
  cbn [pr_speaker_summary _build_speaker_summary ss_speaking_balance].
  rewrite balance_no_roles; [done|].
  intros entry Hentry. by apply mono_entries_unlabelled in Hentry.
Qed.

End FacadeCallers.

(** ** Words through the aggregator and the mono path *)

Lemma split_from_spaces (cur ws : pystr) :
  Forall (fun c => isspace c = true) ws -> split_from cur ws = split_from cur [].
Proof.
  intros Hws. revert cur. induction Hws as [|c ws Hc _ IH]; intros cur; [done|].
  simpl. rewrite Hc, (IH []). by destruct cur.
Qed.

Lemma split_from_app_spaces (cur a ws : pystr) :
  Forall (fun c => isspace c = true) ws ->
  split_from cur (a ++ ws) = split_from cur a.
Proof.
  intros Hws. revert cur. induction a as [|x a IH]; intros cur; simpl.
  - by apply split_from_spaces.
  - destruct (isspace x); [|apply IH]. by rewrite IH.
Qed.

Lemma lstrip_decomp (s : pystr) :
  exists ws, s = ws ++ lstrip s /\ Forall (fun c => isspace c = true) ws.
Proof.
  induction s as [|c s (ws & Hs & Hws)]; simpl; [by exists []|].
  destruct (isspace c) eqn:Hc.
  - exists (c :: ws). split; [simpl; congruence | by constructor].
  - by exists [].
Qed.

Lemma rstrip_decomp (s : pystr) :
  exists ws, s = rstrip s ++ ws /\ Forall (fun c => isspace c = true) ws.
Proof.
  destruct (lstrip_decomp (rev s)) as (ws & Hs & Hws).
  exists (rev ws). split.
  - unfold rstrip. rewrite <- rev_app_distr, <- Hs. by rewrite rev_involutive.
  - apply Forall_forall. intros c Hc.
    apply list_elem_of_In, in_rev, list_elem_of_In in Hc.
    by apply (proj1 (Forall_forall _ _) Hws).
Qed.

Lemma split_lstrip (s : pystr) : split (lstrip s) = split s.
Proof.
  unfold split. induction s as [|c s IH]; simpl; [done|].
  destruct (isspace c) eqn:Hc; [done|]. simpl. by rewrite Hc.
Qed.

Lemma split_rstrip (s : pystr) : split (rstrip s) = split s.
Proof.
  destruct (rstrip_decomp s) as (ws & Hs & Hws).
  rewrite Hs at 2. unfold split. by rewrite split_from_app_spaces.
Qed.

(** Trimming a string does not change its words. *)
Lemma split_strip (s : pystr) : split (strip s) = split s.
Proof. unfold strip. by rewrite split_rstrip, split_lstrip. Qed.

Lemma group_text_words (group : list AlignedSegment) :
  split (group_text group) = segment_words group.
Proof.
  unfold group_text, segment_words.
  rewrite split_strip, (split_join_space 32%N) by done.
  induction group as [|seg group IH]; [done|].
  rewrite !fmap_cons, concat_cons, IH, split_strip. done.
Qed.

Lemma word_total_segments (entries : list SpeakerTranscript) :
  (forall entry, entry ∈ entries ->
     st_word_count entry = Z.of_nat (length (segment_words (st_segments entry)))) ->
  word_total entries
  = Z.of_nat (length (segment_words (concat (st_segments <$> entries)))).
Proof.
  induction entries as [|e entries IH]; intros Hall; [done|].
  simpl. unfold segment_words in *. rewrite bind_app, length_app, Nat2Z.inj_add.
  rewrite (Hall e) by left. rewrite IH; [done|].
  intros entry Hentry. apply Hall. by right.
Qed.

(** X19. The aggregator counts every word once: the word count of an entry
    is the number of whitespace-separated words in the texts of its
    segments, and the counts of all entries add up to the number of words in
    the texts of all input segments. *)
Theorem aggregate_counts_every_word (segs : list AlignedSegment) :
  (forall entry, entry ∈ _aggregate_by_speaker segs ->
     split (st_text entry) = segment_words (st_segments entry) /\
     st_word_count entry = Z.of_nat (length (segment_words (st_segments entry)))) /\
  word_total (_aggregate_by_speaker segs) = Z.of_nat (length (segment_words segs)).
Proof.
  assert (forall entry, entry ∈ _aggregate_by_speaker segs ->
     split (st_text entry) = segment_words (st_segments entry) /\
     st_word_count entry = Z.of_nat (length (segment_words (st_segments entry))))
    as Hentries.
  { rewrite aggregate_by_speaker_eq.
    intros entry (sp & -> & _)%list_elem_of_fmap.
    cbn [group_entry st_text st_segments st_word_count].
    by rewrite group_text_words. }
  split; [exact Hentries|].
  rewrite word_total_segments by (intros entry Hentry; by apply Hentries).
  assert (concat (st_segments <$> _aggregate_by_speaker segs) ≡ₚ segs) as Hperm.
  { rewrite aggregate_by_speaker_eq, <- list_fmap_compose.
    rewrite (list_fmap_ext _ (fun sp => group_of sp segs)
               (first_appearance (al_speaker <$> segs))) by done.
    apply concat_groups_perm; [apply first_appearance_NoDup|].
    intros seg Hseg. apply first_appearance_elem, list_elem_of_fmap. eauto. }
  unfold segment_words. by rewrite Hperm.
Qed.

Section MonoPath.
Context `{CaseMapping} (env : Env).

(** X20. On an input that is not stereo and that the facade answers, the
    file was transcribed with segments and the result is built from those
    segments alone: one aligned segment per transcribed segment; at most two
    entries, with distinct labels among "speaker_1" and "speaker_2"; the
    word counts of the entries add up to the words of the segment texts; and
    when the transcription has no segment the text is empty, there is no
    entry and the role mapping is the "no_data" one, whatever text the
    transcription carries. *)
Theorem process_mono_from_segments (audio_path : path) (audio : Audio)
    (w w' : World) (r : ProcessResult) :
  decode env audio_path = Some audio ->
  channels (audio_profile_of audio) <> 2%Z ->
  process_audio env audio_path w = (Returned r, w') ->
  exists whisper_result,
    transcribe_file env audio_path true = Some whisper_result /\
    let segments := default [] (tx_segments whisper_result) in
    let t := pr_transcript r in
    let entries := tr_transcript_by_speaker t in
    length (tr_segments t) = length segments /\
    (al_text <$> tr_segments t) = ((fun ws => get_str (ws_text ws) []) <$> segments) /\
    NoDup (st_speaker <$> entries) /\
    (forall entry, entry ∈ entries ->
       st_speaker entry = speaker_1 \/ st_speaker entry = speaker_2) /\
    (length entries <= 2)%nat /\
    word_total entries = Z.of_nat (length (segment_words (tr_segments t))) /\
    (segments = [] ->
       tr_text t = [] /\ entries = [] /\ tr_role_mapping t = no_data_mapping).
Proof.
  intros Hdecode Hchannels.
  rewrite (process_audio_mono _ _ _ _ Hdecode Hchannels).
  rewrite (process_mono_run _ _ _ _ _ Hdecode).
  destruct (transcribe_file env audio_path true) as [whisper_result|]; [|done].
  intros [= <- _]. exists whisper_result. split; [done|].
  cbn [pr_transcript tr_segments tr_transcript_by_speaker tr_text tr_role_mapping].
  set (segments := default [] (tx_segments whisper_result)).
  set (diar := diarize default_diarizer (audio_signal audio)).
  set (aligned := _align_segments segments diar).
  assert (forall entry, entry ∈ _aggregate_by_speaker aligned ->
            st_speaker entry = speaker_1 \/ st_speaker entry = speaker_2)
    as Hlabels.
  { rewrite aggregate_by_speaker_eq.
    intros entry (sp & -> & Hsp)%list_elem_of_fmap.
    apply first_appearance_elem, list_elem_of_fmap in Hsp as (a & -> & Ha).
    simpl. apply align_labels in Ha as [Ha|(ds & Hds & ->)]; [by left|].
    by apply diarize_labels in Hds. }
  assert (NoDup (st_speaker <$> _aggregate_by_speaker aligned)) as Hnd.
  { rewrite aggregate_by_speaker_eq, <- list_fmap_compose.
    rewrite (list_fmap_ext _ id (first_appearance (al_speaker <$> aligned)))
      by done.
    rewrite list_fmap_id. apply first_appearance_NoDup. }
  split; [unfold aligned; by rewrite align_is_map, length_fmap|].
  split; [unfold aligned; rewrite align_is_map, <- list_fmap_compose;
          by apply list_fmap_ext|].
  split; [exact Hnd|]. split; [exact Hlabels|]. split.
  - rewrite <- (length_fmap st_speaker).
    change 2%nat with (length [speaker_1; speaker_2]).
    apply submseteq_length, NoDup_submseteq; [exact Hnd|].
    intros sp (entry & -> & Hentry)%list_elem_of_fmap.
    destruct (Hlabels entry Hentry) as [-> | ->]; [by left | by right; left].
  - split.
    + rewrite word_total_segments.
      * assert (concat (st_segments <$> _aggregate_by_speaker aligned) ≡ₚ aligned)
          as Hperm.
        { rewrite aggregate_by_speaker_eq, <- list_fmap_compose.
          rewrite (list_fmap_ext _ (fun sp => group_of sp aligned)
                     (first_appearance (al_speaker <$> aligned))) by done.
          apply concat_groups_perm; [apply first_appearance_NoDup|].
          intros seg Hseg. apply first_appearance_elem, list_elem_of_fmap. eauto. }
        unfold segment_words. by rewrite Hperm.
      * rewrite aggregate_by_speaker_eq.
        intros entry (sp & -> & _)%list_elem_of_fmap.
        cbn [group_entry st_segments st_word_count].
        by rewrite group_text_words.
    + intros Hnone. unfold aligned. rewrite Hnone. done.
Qed.
End MonoPath.

(** ** Worked examples *)

(** Nine frames against the threshold 0.25: three bursts, labelled in turn. *)
Example diarize_three_bursts :
  diarize default_diarizer
    {| n_samples := 2304; rms_norm := [0; 1; 1; 0; 0; 1; 0.5; 0.01; 1];
       rms_mean := 0.5 |} =
  [ {| seg_speaker := speaker_1; seg_start := int_truediv 256 16000;
       seg_end := int_truediv 768 16000; seg_confidence := 0.5 |};
    {| seg_speaker := speaker_2; seg_start := int_truediv 1280 16000;
       seg_end := int_truediv 1792 16000; seg_confidence := 0.5 |};
    {| seg_speaker := speaker_1; seg_start := int_truediv 2048 16000;
       seg_end := int_truediv 2304 16000; seg_confidence := 0.5 |} ].
Proof. reflexivity. Qed.

(** The greeting opens the call and holds two operator cues; the complaint
    holds one client cue: 0.7 against -0.2. *)
Example infer_roles_greeting_and_complaint :
  @_infer_roles latin_case greeting_and_complaint =
  {| rm_operator := Some speaker_1; rm_client := Some speaker_2;
     rm_confidence := 0.3 + 0.4 - (0 - 0.2);
     rm_strategy := py "cue_and_order"; rm_uncertain := Some false;
     rm_notes := None |}.
Proof. reflexivity. Qed.

(** Scores are floats: three operator cues less one client cue rank strictly
    above two operator cues, though both are worth 0.4 on paper. *)
Example score_rounding_breaks_a_tie :
  (score_of false 2 0 <? score_of false 3 1) = true.
Proof. reflexivity. Qed.

(** The interval test is closed at both ends: a midpoint on the shared
    border of two spans (2) goes to the first one, a midpoint on the end of
    the last span (4) still goes to that span, and only a midpoint outside
    every span (6) falls back to "speaker_1" with confidence 0.3. *)
Example align_border_goes_to_first :
  (fun a => (al_speaker a, al_confidence a)) <$>
    _align_segments
      [ {| ws_start := Some 1; ws_end := Some 3; ws_text := Some (py "hola") |};
        {| ws_start := Some 3; ws_end := Some 5; ws_text := Some (py "si") |};
        {| ws_start := Some 5; ws_end := Some 7; ws_text := Some (py "adios") |} ]
      [ {| seg_speaker := speaker_1; seg_start := 0; seg_end := 2;
           seg_confidence := 0.5 |};
        {| seg_speaker := speaker_2; seg_start := 2; seg_end := 4;
           seg_confidence := 0.5 |} ]
  = [ (speaker_1, 0.5); (speaker_2, 0.5); (speaker_1, 0.3) ].
Proof. reflexivity. Qed.

(** ** The theorems on concrete inputs *)

(** Two entries under one speaker label are one speaker: they leave a single
    score and the inferencer answers "single_speaker" with no client. *)
Lemma infer_roles_repeated_label :
  length repeated_label = 2%nat /\
  rm_strategy (@_infer_roles latin_case repeated_label) = py "single_speaker" /\
  rm_client (@_infer_roles latin_case repeated_label) = None /\
  rm_confidence (@_infer_roles latin_case repeated_label) = 0.4.
Proof. vm_compute. repeat split. Qed.

Lemma infer_roles_by_score_witness :
  NoDup (st_speaker <$> greeting_and_complaint) /\
  (2 <= length greeting_and_complaint)%nat /\
  exists operator client,
    operator ∈ greeting_and_complaint /\ client ∈ greeting_and_complaint /\
    rm_operator (@_infer_roles latin_case greeting_and_complaint)
      = Some (st_speaker operator) /\
    rm_client (@_infer_roles latin_case greeting_and_complaint)
      = Some (st_speaker client) /\
    rm_strategy (@_infer_roles latin_case greeting_and_complaint)
      = py "cue_and_order".
Proof.
  assert (NoDup (st_speaker <$> greeting_and_complaint)) as Hnd.
  { apply (bool_decide_unpack _). vm_compute. exact I. }
  assert (2 <= length greeting_and_complaint)%nat as Hlen by (simpl; lia).
  split; [exact Hnd|]. split; [exact Hlen|].
  destruct (proj2 (proj2 (@infer_roles_by_score latin_case))
              greeting_and_complaint Hnd Hlen)
    as (i & j & operator & client & Hi & Hj & _ & _ & _ & _ & _ & Heq).
  exists operator, client.
  split; [exact (list_elem_of_lookup_2 _ _ _ Hi)|].
  split; [exact (list_elem_of_lookup_2 _ _ _ Hj)|].
  rewrite Heq. repeat split; reflexivity.
Defined.

Lemma process_stereo_fixed_mapping_witness :
  decode (example_env 2) "call.wav" = Some (example_audio 2) /\
  channels (audio_profile_of (example_audio 2)) = 2%Z /\
  exists r w',
    @process_audio latin_case (example_env 2) "call.wav" empty_world
      = (Returned r, w') /\
    rm_operator (tr_role_mapping (pr_transcript r)) = Some (py "channel_left") /\
    rm_client (tr_role_mapping (pr_transcript r)) = Some (py "channel_right") /\
    tr_segments (pr_transcript r) = [].
Proof.
  split; [reflexivity|]. split; [reflexivity|].
  pose proof (@process_stereo_fixed_mapping latin_case (example_env 2) "call.wav"
                (example_audio 2) empty_world eq_refl eq_refl) as [Hsafe Hlive].
  destruct Hlive as (r & w' & Hrun); [by eexists..|].
  exists r, w'. split; [exact Hrun|].
  destruct (Hsafe _ _ Hrun) as [_ Hr].
  destruct (Hr r eq_refl) as (Ho & Hc & _ & _ & _ & Hs). done.
Defined.

Lemma diarize_silent_fallback_witness :
  Forall (fun energy => (energy <? threshold default_diarizer silent_signal) = true)
         (rms_norm silent_signal) /\
  diarize default_diarizer silent_signal =
    [ {| seg_speaker := speaker_1; seg_start := 0; seg_end := 1;
         seg_confidence := 0.2 |} ].
Proof.
  assert (Forall (fun energy =>
            (energy <? threshold default_diarizer silent_signal) = true)
            (rms_norm silent_signal)) as Hsilent
    by (repeat constructor).
  split; [exact Hsilent|].
  exact (proj2 (proj1 (diarize_silent_fallback default_diarizer silent_signal) Hsilent)).
Defined.

(** An empty fragment between two others leaves two spaces in the text,
    where joining only the non-empty fragments would leave one. *)
Lemma aggregate_keeps_empty_fragment :
  st_text <$> _aggregate_by_speaker gap_segments = [py "a  b"] /\
  group_text_nonempty (group_of speaker_1 gap_segments) = py "a b".
Proof. vm_compute. split; reflexivity. Qed.

(** One operator word against two client words: the client percentage is
    2/3*100, one unit in the last place below 100 minus the operator
    percentage, and the quality reads "DESBALANCEADO". *)
Lemma balance_client_share_not_complement :
  let b := _compute_speaking_balance one_word_two_words in
  (client_percentage b <? 100 - operator_percentage b) = true /\
  client_percentage b = int_truediv 2 3 * 100 /\
  balance_quality b = py "DESBALANCEADO".
Proof. vm_compute. repeat split. Qed.

Lemma speaking_balance_by_words_witness :
  (role_words (py "operator") one_word_two_words
   + role_words (py "client") one_word_two_words)%Z <> 0%Z /\
  operator_percentage (_compute_speaking_balance one_word_two_words)
    = int_truediv 1 3 * 100.
Proof.
  assert ((role_words (py "operator") one_word_two_words
           + role_words (py "client") one_word_two_words)%Z
          <> 0%Z) as Hne by (vm_compute; discriminate).
  split; [exact Hne|].
  exact (proj1 (proj2 (speaking_balance_by_words one_word_two_words) Hne)).
Defined.

Lemma process_mono_roles_unassigned_witness :
  decode (example_env 1) "call.wav" = Some (example_audio 1) /\
  channels (audio_profile_of (example_audio 1)) <> 2%Z /\
  exists r w',
    @process_audio latin_case (example_env 1) "call.wav" empty_world
      = (Returned r, w') /\
    tr_speaking_balance (pr_transcript r) = no_data_balance /\
    sentiment_get (tr_sentiment_by_role (pr_transcript r)) KOperator = None /\
    sentiment_get (tr_sentiment_by_role (pr_transcript r)) KClient = None.
Proof.
  assert (channels (audio_profile_of (example_audio 1)) <> 2%Z) as Hmono by done.
  split; [reflexivity|]. split; [exact Hmono|].
  pose proof (@process_mono_roles_unassigned latin_case (example_env 1) "call.wav"
                (example_audio 1) empty_world eq_refl Hmono) as [Hsafe Hlive].
  destruct Hlive as (r & w' & Hrun); [by eexists|].
  exists r, w'. split; [exact Hrun|].
  destruct (Hsafe _ _ Hrun) as (_ & Hb & _ & Ho & Hc & _). done.
Defined.

(** With an analyzer configured, the overall call is made on the empty
    combined transcript too. *)
Lemma sentiment_overall_called_on_empty :
  _sentiment_for_roles (example_env 2) [] [] empty_world =
  (Returned (RoleSentiment None None (neutral_analyzer [])),
   {| files := ∅; trace := [CallAnalyzeText []] |}).
Proof. reflexivity. Qed.

(** After a stereo call that returns, both temporary channel files are
    still on disk. *)
Lemma stereo_temp_files_remain :
  (exists r,
     (@process_audio latin_case (example_env 2) "call.wav" empty_world).1
     = Returned r) /\
  "/tmp/tmpa_left.wav" ∈
    files (@process_audio latin_case (example_env 2) "call.wav" empty_world).2 /\
  "/tmp/tmpb_right.wav" ∈
    files (@process_audio latin_case (example_env 2) "call.wav" empty_world).2.
Proof.
  rewrite (process_audio_stereo (example_env 2) "call.wav" (example_audio 2))
    by reflexivity.
  rewrite (process_stereo_run (example_env 2) "call.wav" _ (example_audio 2))
    by reflexivity.
  cbn [example_env transcribe_file fst snd stereo_world files tmp_left tmp_right].
  split; [by eexists|]. set_solver.
Qed.

Lemma process_stereo_leaves_temp_files_witness :
  decode (example_env 2) "call.wav" = Some (example_audio 2) /\
  channels (audio_profile_of (example_audio 2)) = 2%Z /\
  forall out w',
    @process_audio latin_case (example_env 2) "call.wav" empty_world = (out, w') ->
    "/tmp/tmpa_left.wav" ∈ files w' /\ "/tmp/tmpb_right.wav" ∈ files w'.
Proof.
  split; [reflexivity|]. split; [reflexivity|].
  intros out w' Hrun.
  exact (proj2 (@process_stereo_leaves_temp_files latin_case (example_env 2)
                  "call.wav" (example_audio 2) empty_world eq_refl eq_refl
                  out w' Hrun)).
Defined.

(** ** The further properties on concrete inputs *)

Lemma infer_roles_without_cues_witness :
  NoDup (st_speaker <$> two_plain_speakers) /\
  (forall entry, entry ∈ two_plain_speakers ->
     count_cues OPERATOR_CUES (@lower latin_case (st_text entry)) = 0%nat /\
     count_cues CLIENT_CUES (@lower latin_case (st_text entry)) = 0%nat) /\
  rm_operator (@_infer_roles latin_case two_plain_speakers) = Some speaker_1 /\
  rm_client (@_infer_roles latin_case two_plain_speakers) = Some speaker_2 /\
  rm_confidence (@_infer_roles latin_case two_plain_speakers) = 0.3 /\
  rm_uncertain (@_infer_roles latin_case two_plain_speakers) = Some true.
Proof.
  assert (NoDup (st_speaker <$> two_plain_speakers)) as Hnd.
  { apply (bool_decide_unpack _). vm_compute. exact I. }
  assert (forall entry, entry ∈ two_plain_speakers ->
            count_cues OPERATOR_CUES (@lower latin_case (st_text entry)) = 0%nat /\
            count_cues CLIENT_CUES (@lower latin_case (st_text entry)) = 0%nat)
    as Hcues.
  { intros entry Hin. unfold two_plain_speakers in Hin.
    apply elem_of_cons in Hin as [->|Hin]; [split; reflexivity|].
    apply list_elem_of_singleton in Hin as ->. split; reflexivity. }
  split; [exact Hnd|]. split; [exact Hcues|].
  unfold two_plain_speakers in *.
  rewrite (@infer_roles_without_cues latin_case _ _ [] Hnd Hcues).
  repeat split; reflexivity.
Defined.

Lemma speaking_balance_order_free_witness :
  one_word_two_words ≡ₚ rev one_word_two_words /\
  _compute_speaking_balance one_word_two_words
  = _compute_speaking_balance (rev one_word_two_words).
Proof.
  assert (one_word_two_words ≡ₚ rev one_word_two_words) as Hperm
    by apply Permutation_rev.
  split; [exact Hperm|].
  exact (speaking_balance_order_free _ _ Hperm).
Defined.

Lemma process_stereo_channel_figures_witness :
  decode (example_env 2) "call.wav" = Some (example_audio 2) /\
  channels (audio_profile_of (example_audio 2)) = 2%Z /\
  exists r w',
    @process_audio latin_case (example_env 2) "call.wav" empty_world
      = (Returned r, w') /\
    st_word_count <$> tr_transcript_by_speaker (pr_transcript r) = [3%Z; 3%Z] /\
    operator_words (tr_speaking_balance (pr_transcript r)) = Some 3%Z.
Proof.
  split; [reflexivity|]. split; [reflexivity|].
  destruct (@process_audio latin_case (example_env 2) "call.wav" empty_world)
    as [out w'] eqn:Hrun.
  assert (exists r, out = Returned r) as [r ->].
  { rewrite (process_audio_stereo (example_env 2) "call.wav" (example_audio 2))
      in Hrun by reflexivity.
    rewrite (process_stereo_run (example_env 2) "call.wav" _ (example_audio 2))
      in Hrun by reflexivity.
    cbn [example_env transcribe_file] in Hrun.
    injection Hrun as <- _. by eexists. }
  exists r, w'. split; [reflexivity|].
  destruct (@process_stereo_channel_figures latin_case (example_env 2) "call.wav"
              (example_audio 2) empty_world w' r eq_refl eq_refl Hrun)
    as (operator_tx & client_tx & Ho & Hc & _ & Hwords & Hbalance & _).
  cbn [example_env transcribe_file] in Ho, Hc.
  injection Ho as <-. injection Hc as <-.
  split; [exact Hwords|]. rewrite Hbalance. reflexivity.
Defined.

Lemma kpi_balance_after_mono_call_witness :
  decode (example_env 1) "call.wav" = Some (example_audio 1) /\
  channels (audio_profile_of (example_audio 1)) <> 2%Z /\
  exists r w',
    @process_audio latin_case (example_env 1) "call.wav" empty_world
      = (Returned r, w') /\
    kb_balance_quality
      (_calculate_speaking_balance (py "hola buenos dias")
                                   (Some (pr_speaker_summary r)))
    = Some (py "SIN_DATOS").
Proof.
  assert (channels (audio_profile_of (example_audio 1)) <> 2%Z) as Hmono by done.
  split; [reflexivity|]. split; [exact Hmono|].
  destruct (@process_audio latin_case (example_env 1) "call.wav" empty_world)
    as [out w'] eqn:Hrun.
  assert (exists r, out = Returned r) as [r ->].
  { rewrite (process_audio_mono (example_env 1) "call.wav" (example_audio 1))
      in Hrun by done.
    rewrite (process_mono_run (example_env 1) "call.wav" _ (example_audio 1))
      in Hrun by reflexivity.
    cbn [example_env transcribe_file] in Hrun.
    injection Hrun as <- _. by eexists. }
  exists r, w'. split; [reflexivity|].
  rewrite (@kpi_balance_after_mono_call latin_case (example_env 1) "call.wav"
             (example_audio 1) empty_world w' r (py "hola buenos dias")
             eq_refl Hmono Hrun).
  reflexivity.
Defined.

Lemma process_mono_from_segments_witness :
  decode (example_env 1) "call.wav" = Some (example_audio 1) /\
  channels (audio_profile_of (example_audio 1)) <> 2%Z /\
  exists r w',
    @process_audio latin_case (example_env 1) "call.wav" empty_world
      = (Returned r, w') /\
    length (tr_segments (pr_transcript r)) = 1%nat /\
    (length (tr_transcript_by_speaker (pr_transcript r)) <= 2)%nat /\
    word_total (tr_transcript_by_speaker (pr_transcript r))
      = Z.of_nat (length (segment_words (tr_segments (pr_transcript r)))).
Proof.
  assert (channels (audio_profile_of (example_audio 1)) <> 2%Z) as Hmono by done.
  split; [reflexivity|]. split; [exact Hmono|].
  destruct (@process_audio latin_case (example_env 1) "call.wav" empty_world)
    as [out w'] eqn:Hrun.
  assert (exists r, out = Returned r) as [r ->].
  { rewrite (process_audio_mono (example_env 1) "call.wav" (example_audio 1))
      in Hrun by done.
    rewrite (process_mono_run (example_env 1) "call.wav" _ (example_audio 1))
      in Hrun by reflexivity.
    cbn [example_env transcribe_file] in Hrun.
    injection Hrun as <- _. by eexists. }
  exists r, w'. split; [reflexivity|].
  destruct (@process_mono_from_segments latin_case (example_env 1) "call.wav"
              (example_audio 1) empty_world w' r eq_refl Hmono Hrun)
    as (whisper_result & Htx & Hlen & _ & _ & _ & Hentries & Hwords & _).
  cbn [example_env transcribe_file] in Htx. injection Htx as <-.
  split; [exact Hlen|]. split; [exact Hentries | exact Hwords].
Defined.
